(** * rosbag2: rewrite merger, playback engine and recording engine

    A shallow embedding of
    - [rosbag2_cpp::rewrite] and its helper [get_next] (rewrite.cpp),
    - [Player::play_next], [Player::seek], [Player::publish_message],
      [Player::play] and [publisher_qos_for_topic] (player.cpp),
    - [Recorder::record] and
      [Recorder::warn_if_new_qos_for_subscribed_topic] (recorder.cpp),
    with the properties of the specification stated over them. *)

From Stdlib Require Import ZArith Lia Sorted Permutation.
From stdpp Require Import base option list gmap strings numbers sorting pretty relations.

Local Open Scope Z_scope.

(** ** Shared data model *)

(** [rosbag2_storage::SerializedBagMessage]; [time_stamp] is an int64 count
    of nanoseconds, only ever compared, never computed with. *)
Record SerializedBagMessage := mkMsg {
  topic_name : string;
  serialized_data : list Byte.byte;
  time_stamp : Z
}.

Abbreviation Msg := SerializedBagMessage.

(** The vector [next_messages] of the rewrite merger: one shared pointer,
    possibly null, per reader. *)
Abbreviation slots := (list (option SerializedBagMessage)).

(** [rosbag2_storage::TopicMetadata]. *)
Record TopicMetadata := mkTopic {
  name : string;
  type : string;
  serialization_format : string;
  offered_qos_profiles : string
}.

(** C++ exceptions that the modelled code throws or catches. *)
Inductive exception :=
| runtime_error (what : string)
| invalid_argument (what : string).

(** Outcome of running a piece of code on a state of type [S]:
    normal return, a thrown exception (the state reached when it was thrown
    is kept: C++ does not roll back), an out-of-range access ([Fault]), or
    no return at all ([Hang]: a wait that nobody ends, or fuel exhausted). *)
Inductive outcome (S A : Type) :=
| Ret (a : A) (s : S)
| Raise (e : exception) (s : S)
| Fault
| Hang.
Arguments Ret {S A} a s.
Arguments Raise {S A} e s.
Arguments Fault {S A}.
Arguments Hang {S A}.

(** ** Bag reader and bag writer *)

Module Reader.

(** Modelled from the spec: the Bag Reader (rosbag2_cpp::Reader, not under
    src/) "opens a bag, exposes an ordered cursor: has_next, read_next,
    seek(t)".  [storage] is the content of the bag in storage order and
    [unread] what the cursor has not yet returned. *)
Record t := mk {
  storage : list SerializedBagMessage;
  unread : list SerializedBagMessage
}.

Definition open (bag : list SerializedBagMessage) : t := mk bag bag.

Definition has_next (r : t) : bool :=
  match unread r with [] => false | _ :: _ => true end.

(** [read_next] is only defined when [has_next] holds. *)
Definition read_next (r : t) : option (SerializedBagMessage * t) :=
  match unread r with
  | [] => None
  | m :: rest => Some (m, mk (storage r) rest)
  end.

(** Modelled from the spec: [seek(t)] repositions the cursor on the
    messages of the bag whose time stamp is at least [t]. *)
Definition seek (t0 : Z) (r : t) : t :=
  mk (storage r) (filter (λ m, t0 ≤ time_stamp m) (storage r)).

End Reader.

Module Writer.

(** Modelled from the spec: the Bag Writer (rosbag2_cpp::Writer, not under
    src/): [open], [create_topic], [remove_topic], [write(msg)].  The
    model keeps what was asked of the writer. *)
Record t := mk {
  opened : option (string * string);
  topics : list TopicMetadata;
  written : list SerializedBagMessage
}.

Definition open (input_format output_format : string) (w : t) : t :=
  mk (Some (input_format, output_format)) (topics w) (written w).

Definition create_topic (tm : TopicMetadata) (w : t) : t :=
  mk (opened w) (topics w ++ [tm]) (written w).

Definition remove_topic (tm : TopicMetadata) (w : t) : t :=
  mk (opened w)
     (filter (λ x, name x ≠ name tm) (topics w)) (written w).

Definition write (m : SerializedBagMessage) (w : t) : t :=
  mk (opened w) (topics w) (written w ++ [m]).

(** A writer that received the messages [out], in that order, after what
    it had already written. *)
Definition extend (out : list SerializedBagMessage) (w : t) : t :=
  mk (opened w) (topics w) (written w ++ out).

End Writer.

(** ** Rewrite merger (rewrite.cpp) *)

Module Rewrite.

(** [size_t earliest_msg_index = -1;] *)
Definition size_t_minus_one : Z := (-1) mod 2 ^ 64.

(** The "refill queue" loop of [get_next]:
    [for (size_t i = 0; i < next_messages.size(); i++)], with [n] the
    number of iterations left.  A vector access out of range gives
    [None]. *)
Fixpoint refill (n i : nat) (input_bags : list Reader.t)
    (next_messages : slots) : option (list Reader.t * slots) :=
  match n with
  | O => Some (input_bags, next_messages)
  | S n' =>
      slot ← next_messages !! i;
      match slot with
      | Some _ => refill n' (S i) input_bags next_messages
      | None =>
          bag ← input_bags !! i;
          if Reader.has_next bag then
            '(m, bag') ← Reader.read_next bag;
            refill n' (S i) (<[i:=bag']> input_bags)
                   (<[i:=Some m]> next_messages)
          else refill n' (S i) input_bags next_messages
      end
  end.

(** The "find message with lowest timestamp" loop of [get_next]. *)
Fixpoint find_earliest (n i : nat) (next_messages : slots)
    (earliest_msg : option Msg) (earliest_msg_index : Z)
    : option (option Msg * Z) :=
  match n with
  | O => Some (earliest_msg, earliest_msg_index)
  | S n' =>
      msg ← next_messages !! i;
      match msg with
      | None =>
          find_earliest n' (S i) next_messages
                        earliest_msg earliest_msg_index
      | Some m =>
          if match earliest_msg with
             | None => true
             | Some e => bool_decide (time_stamp m < time_stamp e)
             end
          then find_earliest n' (S i) next_messages (Some m) (Z.of_nat i)
          else find_earliest n' (S i) next_messages
                             earliest_msg earliest_msg_index
      end
  end.

(** [next_messages[earliest_msg_index].reset()]: an index that is not a
    position of the vector is an out-of-range access. *)
Definition reset_slot (idx : Z) (next_messages : slots) : option slots :=
  if bool_decide (0 ≤ idx < Z.of_nat (length next_messages))
  then Some (<[Z.to_nat idx:=None]> next_messages)
  else None.

(** [get_next]: the returned message (or null), and the readers and the
    slot vector as the call leaves them. *)
Definition get_next (input_bags : list Reader.t) (next_messages : slots)
    : option (option Msg * list Reader.t * slots) :=
  '(bags1, msgs1) ← refill (length next_messages) 0 input_bags next_messages;
  '(earliest_msg, earliest_msg_index) ←
      find_earliest (length msgs1) 0 msgs1 None size_t_minus_one;
  match earliest_msg with
  | Some _ =>
      msgs2 ← reset_slot earliest_msg_index msgs1;
      Some (earliest_msg, bags1, msgs2)
  | None => Some (None, bags1, msgs1)
  end.

(** The [while (next_msg = get_next(...))] loop of [rewrite]; [fuel]
    bounds the number of calls to [get_next]. *)
Fixpoint rewrite_loop (fuel : nat) (input_bags : list Reader.t)
    (next_messages : slots) (output_bags : list Writer.t)
    : outcome (list Reader.t * list Writer.t) unit :=
  match fuel with
  | O => Hang
  | S fuel' =>
      match get_next input_bags next_messages with
      | None => Fault
      | Some (None, bags', _) => Ret () (bags', output_bags)
      | Some (Some next_msg, bags', msgs') =>
          rewrite_loop fuel' bags' msgs'
                       (Writer.write next_msg <$> output_bags)
      end
  end.

Definition rewrite (fuel : nat) (input_bags : list Reader.t)
    (output_bags : list Writer.t)
    : outcome (list Reader.t * list Writer.t) unit :=
  if bool_decide (input_bags = []) || bool_decide (output_bags = []) then
    Raise (runtime_error
             "Must provide at least one input and one output bag to rewrite.")
          (input_bags, output_bags)
  else
    let next_messages := replicate (length input_bags) None in
    rewrite_loop fuel input_bags next_messages output_bags.

(** One iteration of the refill loop, on the reader and the slot of one
    index. *)
Definition refill_slot (bag : Reader.t) (slot : option Msg)
    : Reader.t * option Msg :=
  match slot with
  | Some m => (bag, Some m)
  | None =>
      match Reader.unread bag with
      | [] => (bag, None)
      | m :: rest => (Reader.mk (Reader.storage bag) rest, Some m)
      end
  end.

(** The readers and the slots once the refill loop has run. *)
Definition refilled_bags (input_bags : list Reader.t) (next_messages : slots)
    : list Reader.t :=
  zip_with (λ b s, (refill_slot b s).1) input_bags next_messages.

Definition refilled_slots (input_bags : list Reader.t) (next_messages : slots)
    : slots :=
  zip_with (λ b s, (refill_slot b s).2) input_bags next_messages.

(** What is still to be emitted for one reader: its slot, then what its
    cursor has not returned. *)
Definition pending_at (bag : Reader.t) (slot : option Msg) : list Msg :=
  option_list slot ++ Reader.unread bag.

(** One lane per reader. *)
Definition lanes (input_bags : list Reader.t) (next_messages : slots)
    : list (list Msg) :=
  zip_with pending_at input_bags next_messages.

(** All the messages the readers hold. *)
Definition all_messages (input_bags : list Reader.t) : list Msg :=
  concat (Reader.unread <$> input_bags).

(** Non-decreasing time stamps. *)
Definition time_ordered (l : list Msg) : Prop :=
  Sorted Z.le (time_stamp <$> l).

(** [m], in slot [j], is the message the merge must choose among the
    slots [heads]: the smallest time stamp, and the smallest index among
    those. *)
Definition earliest_head (heads : slots) (j : nat) (m : Msg) : Prop :=
  heads !! j = Some (Some m) ∧
  ∀ k m', heads !! k = Some (Some m') →
          time_stamp m ≤ time_stamp m' ∧
          (time_stamp m' = time_stamp m → (j ≤ k)%nat).

(** Invariant of the search loop when the indices below [i] are done. *)
Definition earliest_upto (i : nat) (heads : slots)
    (earliest_msg : option Msg) (earliest_msg_index : Z) : Prop :=
  match earliest_msg with
  | None =>
      earliest_msg_index = size_t_minus_one ∧
      ∀ k m', (k < i)%nat → heads !! k ≠ Some (Some m')
  | Some m =>
      ∃ j, earliest_msg_index = Z.of_nat j ∧ (j < i)%nat ∧
           heads !! j = Some (Some m) ∧
           ∀ k m', (k < i)%nat → heads !! k = Some (Some m') →
                   time_stamp m ≤ time_stamp m' ∧
                   (time_stamp m' = time_stamp m → (j ≤ k)%nat)
  end.

(** The k-way merge in the words of the specification, on the lanes: while
    some lane is not empty, emit the head with the smallest time stamp, the
    smallest index breaking ties, and drop it from its lane. *)
Inductive merges : list (list Msg) → list Msg → Prop :=
| merges_stop lns : concat lns = [] → merges lns []
| merges_emit lns j m rest out :
    lns !! j = Some (m :: rest) →
    (∀ k m' rest', lns !! k = Some (m' :: rest') →
                   time_stamp m ≤ time_stamp m' ∧
                   (time_stamp m' = time_stamp m → (j ≤ k)%nat)) →
    merges (<[j:=rest]> lns) out →
    merges lns (m :: out).

End Rewrite.

(** ** State and exception monad *)

(** Code that runs on a state [S] and returns an [A]. *)
Definition M (S A : Type) : Type := S → outcome S A.

Global Instance M_ret {S} : MRet (M S) := λ A a s, Ret a s.

Global Instance M_bind {S} : MBind (M S) := λ A B f m s,
  match m s with
  | Ret a s' => f a s'
  | Raise e s' => Raise e s'
  | Fault => Fault
  | Hang => Hang
  end.

(** [throw e;] *)
Definition throw {S A} (e : exception) : M S A := λ s, Raise e s.

(** [try { body } catch (std::runtime_error & e) { handler(e.what()) }]:
    any other exception goes through. *)
Definition try_catch_runtime_error {S} (body : M S unit)
    (handler : string → M S unit) : M S unit := λ s,
  match body s with
  | Raise (runtime_error what) s' => handler what s'
  | r => r
  end.

(** A wait that does not end. *)
Definition hang {S A} : M S A := λ _, Hang.

(** The state is changed by [f]. *)
Definition modify {S} (f : S → S) : M S unit := λ s, Ret () (f s).

(** Something of the state is read. *)
Definition gets {S A} (f : S → A) : M S A := λ s, Ret (f s) s.

(** Logger lines. *)
Inductive severity := INFO | WARN | ERROR.

Global Instance severity_eq_dec : EqDecision severity.
Proof. solve_decision. Defined.

(** ** Virtual clock *)

Module Clock.

(** Modelled from the spec: the Virtual Clock
    (rosbag2_cpp::TimeControllerClock, not under src/): "jump(t) sets
    base_bag_time = t", "pause() ... stops advance", "is_paused() reports".
    Wall time is not modelled; [jumps] keeps the arguments of the calls to
    [jump], oldest first. *)
Record t := mk {
  paused : bool;
  base_bag_time : Z;
  jumps : list Z
}.

Definition is_paused (c : t) : bool := paused c.

Definition jump (t0 : Z) (c : t) : t := mk (paused c) t0 (jumps c ++ [t0]).

Definition pause (c : t) : t := mk true (base_bag_time c) (jumps c).

Definition resume (c : t) : t := mk false (base_bag_time c) (jumps c).

End Clock.

(** ** Playback engine (player.cpp) *)

Module Player.

(** [std::future<void> storage_loading_future_]: no shared state
    ([valid()] is false), a producer task that runs, or a producer task
    that has finished and whose result has not been taken. *)
Inductive future_state := NoTask | TaskRunning | TaskDone.

(** A publisher of the transport, which knows its topic. *)
Record GenericPublisher := mkPublisher { publisher_topic : string }.

(** The play options the modelled code reads. *)
Record PlayOptions := mkOptions {
  read_ahead_queue_size : nat;
  loop : bool;
  delay : Z
}.

(** The members of [Player] the modelled code touches, the shutdown
    predicate [rclcpp::ok()], the lines sent to the logger and the payloads
    handed to the transport. *)
Record t := mk {
  reader_ : Reader.t;
  clock_ : Clock.t;
  message_queue_ : list Msg;
  publishers_ : gmap string GenericPublisher;
  starting_time_ : Z;
  play_options_ : PlayOptions;
  storage_loading_future_ : future_state;
  is_ready_to_play_from_queue_ : bool;
  ready_to_play_from_queue_cv_ : nat;
  skip_message_in_main_play_loop_ : bool;
  cancel_wait_for_next_message_ : bool;
  rclcpp_ok : bool;
  logger : list (severity * string);
  published : list (string * list Byte.byte)
}.

Definition set_reader_ (v : Reader.t) (s : t) : t :=
  mk v (clock_ s) (message_queue_ s) (publishers_ s) (starting_time_ s)
     (play_options_ s) (storage_loading_future_ s)
     (is_ready_to_play_from_queue_ s) (ready_to_play_from_queue_cv_ s)
     (skip_message_in_main_play_loop_ s) (cancel_wait_for_next_message_ s)
     (rclcpp_ok s) (logger s) (published s).

Definition set_clock_ (v : Clock.t) (s : t) : t :=
  mk (reader_ s) v (message_queue_ s) (publishers_ s) (starting_time_ s)
     (play_options_ s) (storage_loading_future_ s)
     (is_ready_to_play_from_queue_ s) (ready_to_play_from_queue_cv_ s)
     (skip_message_in_main_play_loop_ s) (cancel_wait_for_next_message_ s)
     (rclcpp_ok s) (logger s) (published s).

Definition set_message_queue_ (v : list Msg) (s : t) : t :=
  mk (reader_ s) (clock_ s) v (publishers_ s) (starting_time_ s)
     (play_options_ s) (storage_loading_future_ s)
     (is_ready_to_play_from_queue_ s) (ready_to_play_from_queue_cv_ s)
     (skip_message_in_main_play_loop_ s) (cancel_wait_for_next_message_ s)
     (rclcpp_ok s) (logger s) (published s).

Definition set_storage_loading_future_ (v : future_state) (s : t) : t :=
  mk (reader_ s) (clock_ s) (message_queue_ s) (publishers_ s)
     (starting_time_ s) (play_options_ s) v
     (is_ready_to_play_from_queue_ s) (ready_to_play_from_queue_cv_ s)
     (skip_message_in_main_play_loop_ s) (cancel_wait_for_next_message_ s)
     (rclcpp_ok s) (logger s) (published s).

(** [is_ready_to_play_from_queue_ = v; ready_to_play_from_queue_cv_.notify_all();] *)
Definition set_ready_and_notify (v : bool) (s : t) : t :=
  mk (reader_ s) (clock_ s) (message_queue_ s) (publishers_ s)
     (starting_time_ s) (play_options_ s) (storage_loading_future_ s)
     v (S (ready_to_play_from_queue_cv_ s))
     (skip_message_in_main_play_loop_ s) (cancel_wait_for_next_message_ s)
     (rclcpp_ok s) (logger s) (published s).

Definition set_skip_message_in_main_play_loop_ (v : bool) (s : t) : t :=
  mk (reader_ s) (clock_ s) (message_queue_ s) (publishers_ s)
     (starting_time_ s) (play_options_ s) (storage_loading_future_ s)
     (is_ready_to_play_from_queue_ s) (ready_to_play_from_queue_cv_ s)
     v (cancel_wait_for_next_message_ s)
     (rclcpp_ok s) (logger s) (published s).

Definition set_cancel_wait_for_next_message_ (v : bool) (s : t) : t :=
  mk (reader_ s) (clock_ s) (message_queue_ s) (publishers_ s)
     (starting_time_ s) (play_options_ s) (storage_loading_future_ s)
     (is_ready_to_play_from_queue_ s) (ready_to_play_from_queue_cv_ s)
     (skip_message_in_main_play_loop_ s) v
     (rclcpp_ok s) (logger s) (published s).

Definition add_log (sev : severity) (text : string) (s : t) : t :=
  mk (reader_ s) (clock_ s) (message_queue_ s) (publishers_ s)
     (starting_time_ s) (play_options_ s) (storage_loading_future_ s)
     (is_ready_to_play_from_queue_ s) (ready_to_play_from_queue_cv_ s)
     (skip_message_in_main_play_loop_ s) (cancel_wait_for_next_message_ s)
     (rclcpp_ok s) (logger s ++ [(sev, text)]) (published s).

Definition add_published (topic : string) (data : list Byte.byte) (s : t)
    : t :=
  mk (reader_ s) (clock_ s) (message_queue_ s) (publishers_ s)
     (starting_time_ s) (play_options_ s) (storage_loading_future_ s)
     (is_ready_to_play_from_queue_ s) (ready_to_play_from_queue_cv_ s)
     (skip_message_in_main_play_loop_ s) (cancel_wait_for_next_message_ s)
     (rclcpp_ok s) (logger s) (published s ++ [(topic, data)]).

(** [RCLCPP_INFO_STREAM], [RCLCPP_WARN_STREAM], [RCLCPP_ERROR]. *)
Definition log (sev : severity) (text : string) : M t unit :=
  modify (add_log sev text).

(** [clock_->jump(t)] *)
Definition clock_jump (t0 : Z) : M t unit :=
  modify (λ s, set_clock_ (Clock.jump t0 (clock_ s)) s).

(** The message queue: [peek] gives the head or null, [pop] removes the
    head and tells whether there was one, [enqueue] adds at the tail. *)
Definition queue_peek : M t (option Msg) :=
  gets (λ s, head (message_queue_ s)).

Definition queue_pop : M t bool := λ s,
  match message_queue_ s with
  | [] => Ret false s
  | _ :: rest => Ret true (set_message_queue_ rest s)
  end.

Definition queue_enqueue (m : Msg) : M t unit :=
  modify (λ s, set_message_queue_ (message_queue_ s ++ [m]) s).

(** [read_ahead_lower_bound_percentage_] is 0.9:
    [static_cast<size_t>(read_ahead_queue_size * 0.9)]. *)
Definition queue_lower_boundary (s : t) : nat :=
  (read_ahead_queue_size (play_options_ s) * 9 / 10)%nat.

Definition queue_upper_boundary (s : t) : nat :=
  read_ahead_queue_size (play_options_ s).

(** [is_storage_completely_loaded]: a finished producer task is taken
    ([get()]), after which the future is not valid any more. *)
Definition is_storage_completely_loaded : M t bool := λ s,
  match storage_loading_future_ s with
  | TaskDone => Ret true (set_storage_loading_future_ NoTask s)
  | NoTask => Ret true s
  | TaskRunning => Ret false s
  end.

(** [enqueue_up_to_boundary]: the loop
    [for (size_t i = size_approx(); i < boundary; i++)], with [n] the number
    of iterations left. *)
Fixpoint enqueue_loop (n : nat) (s : t) : t :=
  match n with
  | O => s
  | S n' =>
      if negb (Reader.has_next (reader_ s)) then s
      else
        match Reader.read_next (reader_ s) with
        | None => s
        | Some (message, reader') =>
            enqueue_loop n'
              (set_message_queue_ (message_queue_ s ++ [message])
                 (set_reader_ reader' s))
        end
  end.

Definition enqueue_up_to_boundary (boundary : nat) (s : t) : t :=
  enqueue_loop (boundary - length (message_queue_ s)) s.

(** One turn of the loop of the producer task [load_storage_content]: the
    task ends when the node shuts down or the reader is exhausted; it
    fills the queue when the queue is below the lower boundary, and sleeps
    otherwise. *)
Definition load_storage_content_turn (s : t) : t :=
  match storage_loading_future_ s with
  | TaskRunning =>
      if negb (rclcpp_ok s) then set_storage_loading_future_ TaskDone s
      else if negb (Reader.has_next (reader_ s))
      then set_storage_loading_future_ TaskDone s
      else if bool_decide
                (length (message_queue_ s) < queue_lower_boundary s)%nat
      then enqueue_up_to_boundary (queue_upper_boundary s) s
      else s
  | _ => s
  end.

(** The polling loop of [peek_next_message_from_queue]:
    [while (message_ptr == nullptr && !is_storage_completely_loaded() &&
    rclcpp::ok()) { sleep_for(100us); message_ptr = message_queue_.peek(); }].
    The consumer runs alone here, so the producer task gets its turn
    during the sleep. *)
Fixpoint starved_poll (fuel : nat) (message_ptr : option Msg)
    : M t (option Msg) :=
  match fuel with
  | O => hang
  | S fuel' =>
      match message_ptr with
      | Some _ => mret message_ptr
      | None =>
          loaded ← is_storage_completely_loaded;
          ok ← gets rclcpp_ok;
          if negb loaded && ok then
            modify load_storage_content_turn;;
            message_ptr ← queue_peek;
            starved_poll fuel' message_ptr
          else mret message_ptr
      end
  end.

(** A turn of the producer either fills the queue, ends the task, or
    sleeps; a producer that sleeps on an empty queue does so for ever.  Two
    polls tell which. *)
Definition starvation_polls : nat := 2.

Definition peek_next_message_from_queue : M t (option Msg) :=
  message_ptr ← queue_peek;
  message_ptr ←
    match message_ptr with
    | Some _ => mret message_ptr
    | None =>
        loaded ← is_storage_completely_loaded;
        ok ← gets rclcpp_ok;
        if negb loaded && ok then
          log WARN ("Message queue starved. Messages will be delayed. Consider "
                    +:+ "increasing the --read-ahead-queue-size option.");;
          starved_poll starvation_polls message_ptr
        else mret message_ptr
    end;
  match message_ptr with
  | Some _ => mret message_ptr
  | None => queue_peek
  end.

(** [Player::publish_message] *)
Definition publish_message (message : Msg) : M t bool := λ s,
  match publishers_ s !! topic_name message with
  | Some publisher =>
      Ret true (add_published (publisher_topic publisher)
                              (serialized_data message) s)
  | None => Ret false s
  end.

(** The wait [ready_to_play_from_queue_cv_.wait(lk, [this] {return
    is_ready_to_play_from_queue_;})]: with nobody else running, it returns
    at once or never. *)
Definition wait_until_ready_to_play : M t unit := λ s,
  if is_ready_to_play_from_queue_ s then Ret () s else Hang.

(** The loop of [Player::play_next]:
    [while (message_ptr != nullptr && !next_message_published)]. *)
Fixpoint play_next_loop (fuel : nat) (message_ptr : option Msg)
    (next_message_published : bool) : M t bool :=
  match fuel with
  | O => hang
  | S fuel' =>
      match message_ptr with
      | Some message =>
          if next_message_published then mret next_message_published
          else
            next_message_published ← publish_message message;
            clock_jump (time_stamp message);;
            queue_pop;;
            message_ptr ← peek_next_message_from_queue;
            play_next_loop fuel' message_ptr next_message_published
      | None => mret next_message_published
      end
  end.

(** Every turn of the loop pops a message, so that the messages in the
    queue and those left in the bag bound the number of turns. *)
Definition play_next_fuel (s : t) : nat :=
  S (length (message_queue_ s) + length (Reader.unread (reader_ s))).

(** [Player::play_next] *)
Definition play_next : M t bool := λ s,
  if negb (Clock.is_paused (clock_ s)) then
    (log WARN "Called play next, but not in paused state.";; mret false) s
  else
    (log INFO "Playing next message.";;
     modify (set_skip_message_in_main_play_loop_ true);;
     wait_until_ready_to_play;;
     message_ptr ← peek_next_message_from_queue;
     play_next_loop (play_next_fuel s) message_ptr false) s.

(** [while (message_queue_.pop()) {}] *)
Fixpoint purge_queue (fuel : nat) : M t unit :=
  match fuel with
  | O => hang
  | S fuel' =>
      popped ← queue_pop;
      if popped : bool then purge_queue fuel' else mret ()
  end.

(** [Player::seek] *)
Definition seek (time_point : Z) : M t unit := λ s,
  (modify (set_skip_message_in_main_play_loop_ true);;
   wait_until_ready_to_play;;
   modify (set_cancel_wait_for_next_message_ true);;
   starting_time ← gets starting_time_;
   let time_point :=
     if bool_decide (time_point < starting_time) then starting_time
     else time_point in
   purge_queue (S (length (message_queue_ s)));;
   modify (λ s, set_reader_ (Reader.seek time_point (reader_ s)) s);;
   clock_jump time_point;;
   loaded ← is_storage_completely_loaded;
   ok ← gets rclcpp_ok;
   if loaded && ok then modify (set_storage_loading_future_ TaskRunning)
   else mret ()) s.

(** [Player::play].  What a pass of [play] asks of the storage and of the
    two threads is taken as given: [reader_seek] is [reader_->seek], which
    may throw; [wait_for_filled_queue] and [play_messages_from_queue] run
    while the producer task loads the bag, and an exception of that task
    comes out of them when [is_storage_completely_loaded] takes its
    result. *)
(** The former producer task run to its end.  It ends when the node shuts
    down or the reader is exhausted; a task that sleeps while nobody takes
    a message from the queue sleeps for ever. *)
Fixpoint join_loader_loop (fuel : nat) : M t unit :=
  match fuel with
  | O => hang
  | S fuel' => λ s,
      match storage_loading_future_ s with
      | TaskRunning => join_loader_loop fuel' (load_storage_content_turn s)
      | _ => Ret () s
      end
  end.

(** A first turn fills the queue or ends the task, a second one ends it
    when the reader ran out during the fill; a task that is still running
    after that is asleep. *)
Definition join_loader : M t unit := join_loader_loop 3.

(** [storage_loading_future_ = std::async(...)] in [play]: the assignment
    releases the former future, which waits for a task that is still
    running, and keeps the new one.  The model gives the former task its
    turns here, at the wait; in the program such a task may also have
    taken turns earlier in the pass, before the seek, which the model does
    not follow. *)
Definition spawn_loader : M t unit :=
  join_loader;;
  modify (set_storage_loading_future_ TaskRunning).

Section Play.

Variable reader_seek : Z → M t unit.
Variable wait_for_filled_queue : M t unit.
Variable play_messages_from_queue : M t unit.

(** The body of the [do ... while] loop; [std::this_thread::sleep_for]
    changes nothing in the state. *)
Definition play_pass (delay : Z) : M t unit :=
  (if bool_decide (0 < delay)
   then log INFO ("Sleep " +:+ pretty delay +:+ " ns")
   else mret ());;
  starting_time ← gets starting_time_;
  reader_seek starting_time;;
  clock_jump starting_time;;
  spawn_loader;;
  wait_for_filled_queue;;
  play_messages_from_queue;;
  modify (set_ready_and_notify false).

(** [do { ... } while (rclcpp::ok() && play_options_.loop);], [fuel]
    bounding the number of passes. *)
Fixpoint play_loop (fuel : nat) (delay : Z) : M t unit :=
  match fuel with
  | O => hang
  | S fuel' =>
      play_pass delay;;
      ok ← gets rclcpp_ok;
      again ← gets (λ s, loop (play_options_ s));
      if ok && again then play_loop fuel' delay else mret ()
  end.

(** The delay [play] uses: the option, or none when the option is
    negative. *)
Definition checked_delay : M t Z :=
  option_delay ← gets (λ s, delay (play_options_ s));
  if bool_decide (0 ≤ option_delay) then mret option_delay
  else
    log WARN ("Invalid delay value: " +:+ pretty option_delay +:+
              ". Delay is disabled.");;
    mret 0.

Definition play (fuel : nat) : M t unit :=
  delay ← checked_delay;
  try_catch_runtime_error (play_loop fuel delay)
    (λ what, log ERROR ("Failed to play: " +:+ what));;
  modify (set_ready_and_notify false).

End Play.

(** What the consumer can still be given without another [seek]: the
    queue, then what the reader has not returned. *)
Definition stream (s : t) : list Msg :=
  message_queue_ s ++ Reader.unread (reader_ s).

(** What neither a turn of the producer task nor a peek changes. *)
Definition same_session (s s' : t) : Prop :=
  clock_ s' = clock_ s ∧
  publishers_ s' = publishers_ s ∧
  published s' = published s ∧
  starting_time_ s' = starting_time_ s ∧
  play_options_ s' = play_options_ s ∧
  rclcpp_ok s' = rclcpp_ok s ∧
  is_ready_to_play_from_queue_ s' = is_ready_to_play_from_queue_ s ∧
  Reader.storage (reader_ s') = Reader.storage (reader_ s) ∧
  stream s' = stream s.

(** What [publish_message] hands to the transport for [m], if anything,
    given the publishers [pubs]. *)
Definition publication (pubs : gmap string GenericPublisher) (m : Msg)
    : list (string * list Byte.byte) :=
  match pubs !! topic_name m with
  | Some publisher => [(publisher_topic publisher, serialized_data m)]
  | None => []
  end.

(** The topic of [m] has no publisher. *)
Definition no_publisher (pubs : gmap string GenericPublisher) (m : Msg)
    : Prop :=
  pubs !! topic_name m = None.

(** What one call of the loop of [play_next] did, given the messages
    [popped] it took from the stream. *)
Definition stepped (s s' : t) (b : bool) (popped : list Msg) : Prop :=
  stream s = popped ++ stream s' ∧
  publishers_ s' = publishers_ s ∧
  published s' = published s ++ flat_map (publication (publishers_ s)) popped ∧
  Clock.jumps (clock_ s') = Clock.jumps (clock_ s) ++ (time_stamp <$> popped) ∧
  Clock.paused (clock_ s') = Clock.paused (clock_ s) ∧
  if b then
    ∃ skipped m, popped = skipped ++ [m] ∧
                 Forall (no_publisher (publishers_ s)) skipped ∧
                 is_Some (publishers_ s !! topic_name m)
  else Forall (no_publisher (publishers_ s)) popped ∧ message_queue_ s' = [].

(** The clamp of [seek]. *)
Definition clamp_to_start (s : t) (time_point : Z) : Z :=
  if bool_decide (time_point < starting_time_ s) then starting_time_ s
  else time_point.

End Player.

(** ** Playback engine: the play loop and the producer, step by step *)

Module Playback.

Import Player.

(** What the producer task and [is_storage_completely_loaded] do to the
    state, one step at a time: a line is logged; the result of a finished
    task is taken; the running task ends, which it does only when the node
    shuts down or the reader is exhausted; the running task moves one
    message from the reader to the tail of the queue. *)
Inductive loading_step : t → t → Prop :=
| step_log s sev text : loading_step s (add_log sev text s)
| step_take s :
    storage_loading_future_ s = TaskDone →
    loading_step s (set_storage_loading_future_ NoTask s)
| step_finish s :
    storage_loading_future_ s = TaskRunning →
    rclcpp_ok s = false ∨ Reader.unread (reader_ s) = [] →
    loading_step s (set_storage_loading_future_ TaskDone s)
| step_enqueue s m rest :
    storage_loading_future_ s = TaskRunning →
    Reader.unread (reader_ s) = m :: rest →
    loading_step s
      (set_message_queue_ (message_queue_ s ++ [m])
         (set_reader_ (Reader.mk (Reader.storage (reader_ s)) rest) s)).


(** [Player::wait_for_filled_queue]: the loop
    [while (size_approx() < read_ahead_queue_size &&
    !is_storage_completely_loaded() && rclcpp::ok()) sleep_for(...)], the
    producer task taking its turn during the sleep. *)
Fixpoint wait_for_filled_queue_loop (fuel : nat) : M t unit :=
  match fuel with
  | O => hang
  | S fuel' =>
      size ← gets (λ s, length (message_queue_ s));
      queue_size ← gets (λ s, read_ahead_queue_size (play_options_ s));
      if bool_decide (size < queue_size)%nat then
        loaded ← is_storage_completely_loaded;
        ok ← gets rclcpp_ok;
        if negb loaded && ok then
          modify load_storage_content_turn;;
          wait_for_filled_queue_loop fuel'
        else mret ()
      else mret ()
  end.

(** A first turn of the producer fills the queue (or finds the reader
    exhausted), a second one ends the task when the reader ran out during
    the fill; a producer that sleeps below the upper boundary does so for
    ever.  Three tests of the condition tell which. *)
Definition filled_queue_polls : nat := 3.

Definition wait_for_filled_queue : M t unit :=
  wait_for_filled_queue_loop filled_queue_polls.

(** [reader_->seek(t)] on the reader of the model. *)
Definition reader_seek (t0 : Z) : M t unit :=
  modify (λ s, set_reader_ (Reader.seek t0 (reader_ s)) s).

Section Clocked.

(** [clock_->sleep_until(t)] in a given state of the player, for all that
    the clock does while the consumer is alone: true when the time is
    reached, false when the sleep is cut short. *)
Variable sleep_until : Z → t → bool.

(** [while (rclcpp::ok() && !clock_->sleep_until(message->time_stamp))
    { if (std::atomic_exchange(&cancel_wait_for_next_message_, false))
    { break; } }]: nothing changes between two sleeps, so that a sleep cut
    short without a cancellation is cut short for ever. *)
Definition wait_for_message_time (time : Z) : M t unit := λ s,
  if rclcpp_ok s && negb (sleep_until time s) then
    if cancel_wait_for_next_message_ s
    then Ret () (set_cancel_wait_for_next_message_ false s)
    else Hang
  else Ret () s.

(** The loop [while (message_ptr != nullptr && rclcpp::ok())] of
    [play_messages_from_queue]. *)
Fixpoint play_messages_loop (fuel : nat) (message_ptr : option Msg)
    : M t unit :=
  match fuel with
  | O => hang
  | S fuel' =>
      match message_ptr with
      | None => mret ()
      | Some message =>
          ok ← gets rclcpp_ok;
          if negb ok then mret ()
          else
            wait_for_message_time (time_stamp message);;
            ok ← gets rclcpp_ok;
            skip ← gets skip_message_in_main_play_loop_;
            if ok && skip then
              modify (set_skip_message_in_main_play_loop_ false);;
              modify (set_cancel_wait_for_next_message_ false);;
              message_ptr ← peek_next_message_from_queue;
              play_messages_loop fuel' message_ptr
            else
              (if ok then publish_message message;; mret () else mret ());;
              queue_pop;;
              message_ptr ← peek_next_message_from_queue;
              play_messages_loop fuel' message_ptr
      end
  end.

(** [while (is_paused()) { clock_->sleep_until(clock_->now()); }] *)
Definition wait_while_paused : M t unit := λ s,
  if Clock.is_paused (clock_ s) then Hang else Ret () s.

(** A turn of the loop pops a message, or clears the skip flag. *)
Definition play_messages_fuel (s : t) : nat :=
  S (S (length (message_queue_ s) + length (Reader.unread (reader_ s)))).

(** [Player::play_messages_from_queue] *)
Definition play_messages_from_queue : M t unit := λ s,
  (message_ptr ← peek_next_message_from_queue;
   modify (set_ready_and_notify true);;
   play_messages_loop (play_messages_fuel s) message_ptr;;
   wait_while_paused) s.


End Clocked.

(** [Player::pause], [Player::resume], [Player::is_paused] and
    [Player::toggle_paused]. *)
Definition pause : M t unit :=
  modify (λ s, set_clock_ (Clock.pause (clock_ s)) s);;
  log INFO "Pausing play.".

Definition resume : M t unit :=
  modify (λ s, set_clock_ (Clock.resume (clock_ s)) s);;
  log INFO "Resuming play.".

Definition is_paused : M t bool :=
  gets (λ s, Clock.is_paused (clock_ s)).

Definition toggle_paused : M t unit :=
  paused ← is_paused;
  if paused : bool then resume else pause.

End Playback.

(** ** QoS profiles *)

Module Qos.

(** [rmw_qos_reliability_policy_t] and [rmw_qos_durability_policy_t], of
    the middleware interface. *)
Inductive reliability_policy :=
| RELIABILITY_SYSTEM_DEFAULT
| RELIABILITY_RELIABLE
| RELIABILITY_BEST_EFFORT
| RELIABILITY_UNKNOWN.

Inductive durability_policy :=
| DURABILITY_SYSTEM_DEFAULT
| DURABILITY_TRANSIENT_LOCAL
| DURABILITY_VOLATILE
| DURABILITY_UNKNOWN.

(** The policies of a profile that the modelled code reads. *)
Record t := mk {
  depth : nat;
  reliability : reliability_policy;
  durability : durability_policy
}.

Definition is_best_effort (r : reliability_policy) : bool :=
  match r with RELIABILITY_BEST_EFFORT => true | _ => false end.

Definition is_volatile (d : durability_policy) : bool :=
  match d with DURABILITY_VOLATILE => true | _ => false end.

(** What qos.hpp and yaml-cpp provide, neither of them under src/: the
    default profile [Rosbag2QoS{}], the parser and the printer of lists of
    profiles, and the two adaptations. *)
Record Library := mkLibrary {
  default_qos : t;
  yaml_load : string → list t;
  yaml_dump : list t → string;
  adapt_offer_to_recorded_offers : string → list t → t;
  adapt_request_to_offers : string → list t → t
}.

End Qos.

(** [publisher_qos_for_topic] of player.cpp: the lines sent to the logger
    and the profile returned. *)
Definition publisher_qos_for_topic (lib : Qos.Library) (topic : TopicMetadata)
    (topic_qos_profile_overrides : gmap string Qos.t)
    : list (severity * string) * Qos.t :=
  match topic_qos_profile_overrides !! name topic with
  | Some qos =>
      ([(INFO, "Overriding QoS profile for topic " +:+ name topic)], qos)
  | None =>
      if bool_decide (offered_qos_profiles topic = "") then
        ([], Qos.default_qos lib)
      else
        let offered_qos_profiles :=
          Qos.yaml_load lib (offered_qos_profiles topic) in
        ([], Qos.adapt_offer_to_recorded_offers lib (name topic)
                                                offered_qos_profiles)
  end.

(** ** Recording engine (recorder.cpp) *)

Module Recorder.

(** A subscription of the transport, with the profile it was given. *)
Record GenericSubscription := mkSubscription {
  subscription_type : string;
  actual_qos : Qos.t
}.

Record RecordOptions := mkRecordOptions {
  rmw_serialization_format : string;
  is_discovery_disabled : bool;
  topic_qos_profile_overrides : gmap string Qos.t
}.

Record StorageOptions := mkStorageOptions { snapshot_mode : bool }.

(** The node graph, the transport and the storage at the time of a call:
    the format of the middleware, what [get_requested_or_available_topics]
    returns (its filters are in topic_filter.hpp, not under src/), the
    publishers of a topic, the subscription the transport creates, if any,
    and the storage error that [writer_->open] throws, if any. *)
Record Middleware := mkMiddleware {
  rmw_get_serialization_format : string;
  get_requested_or_available_topics : list (string * string);
  get_publishers_info_by_topic : string → list Qos.t;
  create_generic_subscription :
    string → string → Qos.t → option GenericSubscription;
  writer_open_error : option exception
}.

Record t := mk {
  writer_ : Writer.t;
  storage_options_ : StorageOptions;
  record_options_ : RecordOptions;
  subscriptions_ : gmap string GenericSubscription;
  topics_warned_about_incompatibility_ : gset string;
  topic_qos_profile_overrides_ : gmap string Qos.t;
  serialization_format_ : string;
  srv_snapshot_ : bool;
  discovery_future_ : bool;
  logger : list (severity * string)
}.

Definition set_writer_ (v : Writer.t) (s : t) : t :=
  mk v (storage_options_ s) (record_options_ s) (subscriptions_ s)
     (topics_warned_about_incompatibility_ s) (topic_qos_profile_overrides_ s)
     (serialization_format_ s) (srv_snapshot_ s) (discovery_future_ s)
     (logger s).

Definition set_subscriptions_ (v : gmap string GenericSubscription) (s : t)
    : t :=
  mk (writer_ s) (storage_options_ s) (record_options_ s) v
     (topics_warned_about_incompatibility_ s) (topic_qos_profile_overrides_ s)
     (serialization_format_ s) (srv_snapshot_ s) (discovery_future_ s)
     (logger s).

Definition set_topics_warned_about_incompatibility_ (v : gset string)
    (s : t) : t :=
  mk (writer_ s) (storage_options_ s) (record_options_ s) (subscriptions_ s)
     v (topic_qos_profile_overrides_ s)
     (serialization_format_ s) (srv_snapshot_ s) (discovery_future_ s)
     (logger s).

Definition set_topic_qos_profile_overrides_ (v : gmap string Qos.t) (s : t)
    : t :=
  mk (writer_ s) (storage_options_ s) (record_options_ s) (subscriptions_ s)
     (topics_warned_about_incompatibility_ s) v
     (serialization_format_ s) (srv_snapshot_ s) (discovery_future_ s)
     (logger s).

Definition set_serialization_format_ (v : string) (s : t) : t :=
  mk (writer_ s) (storage_options_ s) (record_options_ s) (subscriptions_ s)
     (topics_warned_about_incompatibility_ s) (topic_qos_profile_overrides_ s)
     v (srv_snapshot_ s) (discovery_future_ s) (logger s).

Definition set_srv_snapshot_ (v : bool) (s : t) : t :=
  mk (writer_ s) (storage_options_ s) (record_options_ s) (subscriptions_ s)
     (topics_warned_about_incompatibility_ s) (topic_qos_profile_overrides_ s)
     (serialization_format_ s) v (discovery_future_ s) (logger s).

Definition set_discovery_future_ (v : bool) (s : t) : t :=
  mk (writer_ s) (storage_options_ s) (record_options_ s) (subscriptions_ s)
     (topics_warned_about_incompatibility_ s) (topic_qos_profile_overrides_ s)
     (serialization_format_ s) (srv_snapshot_ s) v (logger s).

Definition add_log (sev : severity) (text : string) (s : t) : t :=
  mk (writer_ s) (storage_options_ s) (record_options_ s) (subscriptions_ s)
     (topics_warned_about_incompatibility_ s) (topic_qos_profile_overrides_ s)
     (serialization_format_ s) (srv_snapshot_ s) (discovery_future_ s)
     (logger s ++ [(sev, text)]).

Section Node.

Variable lib : Qos.Library.
Variable env : Middleware.

(** [Recorder::serialized_offered_qos_profiles_for_topic] *)
Definition serialized_offered_qos_profiles_for_topic (topic_name : string)
    : string :=
  Qos.yaml_dump lib (get_publishers_info_by_topic env topic_name).

(** [Recorder::subscription_qos_for_topic]: the state with the line sent to
    the logger, and the profile. *)
Definition subscription_qos_for_topic (topic_name : string) (s : t)
    : t * Qos.t :=
  match topic_qos_profile_overrides_ s !! topic_name with
  | Some qos =>
      (add_log INFO ("Overriding subscription profile for " +:+ topic_name) s,
       qos)
  | None =>
      (s, Qos.adapt_request_to_offers lib topic_name
            (get_publishers_info_by_topic env topic_name))
  end.

(** [Recorder::subscribe_topic]; [std::unordered_map::insert] leaves an
    existing entry as it is. *)
Definition subscribe_topic (topic : TopicMetadata) (s : t) : t :=
  let s := set_writer_ (Writer.create_topic topic (writer_ s)) s in
  let '(s, subscription_qos) := subscription_qos_for_topic (name topic) s in
  match create_generic_subscription env (name topic) (type topic)
                                    subscription_qos with
  | Some subscription =>
      let s :=
        match subscriptions_ s !! name topic with
        | Some _ => s
        | None =>
            set_subscriptions_ (<[name topic:=subscription]> (subscriptions_ s))
                               s
        end in
      add_log INFO ("Subscribed to topic '" +:+ name topic +:+ "'") s
  | None =>
      let s := set_writer_ (Writer.remove_topic topic (writer_ s)) s in
      set_subscriptions_ (delete (name topic) (subscriptions_ s)) s
  end.

(** [Recorder::subscribe_topics] *)
Definition subscribe_topics (topics_and_types : list (string * string))
    (s : t) : t :=
  foldl (λ s topic_with_type,
           subscribe_topic
             (mkTopic topic_with_type.1 topic_with_type.2
                      (serialization_format_ s)
                      (serialized_offered_qos_profiles_for_topic
                         topic_with_type.1))
             s)
        s topics_and_types.

(** [Recorder::record].  [writer_->open] throws the storage error of the
    moment, if there is one; the calls after it are those of the transport
    of the model. *)
Definition record : M t unit :=
  modify (λ s, set_topic_qos_profile_overrides_
                 (topic_qos_profile_overrides (record_options_ s)) s);;
  format ← gets (λ s, rmw_serialization_format (record_options_ s));
  if bool_decide (format = "") then
    throw (runtime_error "No serialization format specified!")
  else
    match writer_open_error env with
    | Some e => throw e
    | None =>
        modify (λ s, set_writer_
                       (Writer.open (rmw_get_serialization_format env) format
                                    (writer_ s)) s)
    end;;
    snapshot ← gets (λ s, snapshot_mode (storage_options_ s));
    (if snapshot : bool then modify (set_srv_snapshot_ true) else mret ());;
    modify (set_serialization_format_ format);;
    modify (add_log INFO "Listening for topics...");;
    modify (subscribe_topics (get_requested_or_available_topics env));;
    discovery_disabled ← gets (λ s, is_discovery_disabled (record_options_ s));
    if negb discovery_disabled then modify (set_discovery_future_ true)
    else mret ().

Definition reliability_warning (topic_name : string) : string :=
  "A new publisher for subscribed topic " +:+ topic_name +:+ " " +:+
  "was found offering RMW_QOS_POLICY_RELIABILITY_BEST_EFFORT, " +:+
  "but rosbag already subscribed requesting RMW_QOS_POLICY_RELIABILITY_RELIABLE. " +:+
  "Messages from this new publisher will not be recorded.".

Definition durability_warning (topic_name : string) : string :=
  "A new publisher for subscribed topic " +:+ topic_name +:+ " " +:+
  "was found offering RMW_QOS_POLICY_DURABILITY_VOLATILE, " +:+
  "but rosbag2 already subscribed requesting RMW_QOS_POLICY_DURABILITY_TRANSIENT_LOCAL. " +:+
  "Messages from this new publisher will not be recorded.".

(** The body of the loop over the publishers in
    [warn_if_new_qos_for_subscribed_topic]. *)
Definition warn_about_publisher (topic_name : string) (used_profile : Qos.t)
    (s : t) (new_profile : Qos.t) : t :=
  let incompatible_reliability :=
    Qos.is_best_effort (Qos.reliability new_profile) &&
    negb (Qos.is_best_effort (Qos.reliability used_profile)) in
  let incompatible_durability :=
    Qos.is_volatile (Qos.durability new_profile) &&
    negb (Qos.is_volatile (Qos.durability used_profile)) in
  if incompatible_reliability then
    set_topics_warned_about_incompatibility_
      ({[topic_name]} ∪ topics_warned_about_incompatibility_ s)
      (add_log WARN (reliability_warning topic_name) s)
  else if incompatible_durability then
    set_topics_warned_about_incompatibility_
      ({[topic_name]} ∪ topics_warned_about_incompatibility_ s)
      (add_log WARN (durability_warning topic_name) s)
  else s.

(** [Recorder::warn_if_new_qos_for_subscribed_topic] *)
Definition warn_if_new_qos_for_subscribed_topic (topic_name : string)
    (s : t) : t :=
  match subscriptions_ s !! topic_name with
  | None => s
  | Some existing_subscription =>
      if bool_decide (topic_name ∈ topics_warned_about_incompatibility_ s)
      then s
      else
        let used_profile := actual_qos existing_subscription in
        foldl (warn_about_publisher topic_name used_profile) s
              (get_publishers_info_by_topic env topic_name)
  end.

End Node.

(** The QoS warnings about [topic_name] in the lines sent to the logger. *)
Definition qos_warnings (topic_name : string) (s : t)
    : list (severity * string) :=
  filter (λ line, line = (WARN, reliability_warning topic_name) ∨
                  line = (WARN, durability_warning topic_name))
         (logger s).

End Recorder.

(** ** Playback engine: the publishers (player.cpp) *)

Module Publishers.

Import Player.

Definition set_publishers_ (v : gmap string GenericPublisher) (s : t) : t :=
  mk (reader_ s) (clock_ s) (message_queue_ s) v (starting_time_ s)
     (play_options_ s) (storage_loading_future_ s)
     (is_ready_to_play_from_queue_ s) (ready_to_play_from_queue_cv_ s)
     (skip_message_in_main_play_loop_ s) (cancel_wait_for_next_message_ s)
     (rclcpp_ok s) (logger s) (published s).

Definition add_logs (lines : list (severity * string)) (s : t) : t :=
  mk (reader_ s) (clock_ s) (message_queue_ s) (publishers_ s)
     (starting_time_ s) (play_options_ s) (storage_loading_future_ s)
     (is_ready_to_play_from_queue_ s) (ready_to_play_from_queue_cv_ s)
     (skip_message_in_main_play_loop_ s) (cancel_wait_for_next_message_ s)
     (rclcpp_ok s) (logger s ++ lines) (published s).

(** Modelled from the spec: [set_filter(StorageFilter { topics })] of the
    Bag Reader; with a list of topics that is not empty, the cursor only
    returns the messages of these topics. *)
Definition set_filter (topics : list string) (r : Reader.t) : Reader.t :=
  if bool_decide (topics = []) then r
  else Reader.mk (filter (λ m, topic_name m ∈ topics) (Reader.storage r))
                 (filter (λ m, topic_name m ∈ topics) (Reader.unread r)).

(** What [prepare_publishers] reads besides the members of the model: the
    play options [topics_to_filter] and [clock_publish_frequency] (the
    period of the clock timer when the frequency is positive, as the
    computation is in floating point), the QoS overrides, the catalog
    [reader_->get_all_topics_and_types()] and what
    [create_generic_publisher] does: a publisher, or an exception; what
    [create_publisher] and [create_wall_timer] throw for "/clock", if
    anything; and what [YAML::Load] and [as<>] throw on the text of offered
    profiles, if anything. *)
Record Setup := mkSetup {
  topics_to_filter : list string;
  clock_publish_period : option Z;
  topic_qos_profile_overrides_ : gmap string Qos.t;
  get_all_topics_and_types : list TopicMetadata;
  create_generic_publisher :
    string → string → Qos.t → exception + GenericPublisher;
  create_clock_publisher_error : option exception;
  yaml_load_error : string → option exception
}.

Section Prepare.

Variable lib : Qos.Library.
Variable setup : Setup.

(** The topic is let through by [topics_to_filter]. *)
Definition passes_filter (topic_name : string) : bool :=
  bool_decide (topics_to_filter setup = []) ||
  bool_decide (topic_name ∈ topics_to_filter setup).

(** What [publisher_qos_for_topic] throws for [topic], if anything: the
    offered profiles are parsed only when the topic has no override and
    the text is not empty. *)
Definition publisher_qos_error (topic : TopicMetadata) : option exception :=
  match topic_qos_profile_overrides_ setup !! name topic with
  | Some _ => None
  | None =>
      if bool_decide (offered_qos_profiles topic = "") then None
      else yaml_load_error setup (offered_qos_profiles topic)
  end.

(** The body of the loop over the topics of the catalog; the call of
    [publisher_qos_for_topic] is outside the [try]. *)
Definition prepare_topic (topic : TopicMetadata) : M t unit := λ s,
  match publishers_ s !! name topic with
  | Some _ => Ret () s
  | None =>
      if negb (passes_filter (name topic)) then Ret () s
      else
        match publisher_qos_error topic with
        | Some e => Raise e s
        | None =>
            let '(lines, topic_qos) :=
              publisher_qos_for_topic lib topic
                (topic_qos_profile_overrides_ setup) in
            let s := add_logs lines s in
            match create_generic_publisher setup (name topic) (type topic)
                                           topic_qos with
            | inr publisher =>
                Ret () (set_publishers_
                          (<[name topic:=publisher]> (publishers_ s)) s)
            | inl (runtime_error what) =>
                Ret () (add_log WARN
                          ("Ignoring a topic '" +:+ name topic +:+
                           "', reason: " +:+ what +:+ ".") s)
            | inl e => Raise e s
            end
        end
  end.

Fixpoint prepare_topics (topics : list TopicMetadata) : M t unit :=
  match topics with
  | [] => mret ()
  | topic :: rest => prepare_topic topic;; prepare_topics rest
  end.

(** The block "Create /clock publisher": with a positive frequency the
    publisher and the timer are created, which may throw.  They are no
    members of the model: the period of the timer that is created, if any,
    is the result. *)
Definition create_clock_publisher : M t (option Z) :=
  match clock_publish_period setup with
  | None => mret None
  | Some publish_period =>
      match create_clock_publisher_error setup with
      | Some e => throw e
      | None => mret (Some publish_period)
      end
  end.

(** [Player::prepare_publishers]; the period of the clock timer that was
    created, if any, is returned. *)
Definition prepare_publishers : M t (option Z) :=
  modify (λ s, set_reader_ (set_filter (topics_to_filter setup) (reader_ s))
                           s);;
  clock_publish_timer ← create_clock_publisher;
  prepare_topics (get_all_topics_and_types setup);;
  mret clock_publish_timer.

(** The exception [e] can leave [prepare_publishers] over the catalog
    [topics]: it comes from the "/clock" block, from the parse of the
    offered profiles of a topic that the filter lets through, or from
    [create_generic_publisher] and is no runtime error. *)
Definition escapes (topics : list TopicMetadata) (e : exception) : Prop :=
  (is_Some (clock_publish_period setup) ∧
   create_clock_publisher_error setup = Some e) ∨
  (∃ topic, topic ∈ topics ∧ passes_filter (name topic) = true ∧
            publisher_qos_error topic = Some e) ∨
  (∃ topic, topic ∈ topics ∧ passes_filter (name topic) = true ∧
     create_generic_publisher setup (name topic) (type topic)
       (publisher_qos_for_topic lib topic
          (topic_qos_profile_overrides_ setup)).2 = inl e ∧
     ∀ what, e ≠ runtime_error what).

(** The publisher [p] of [topic_name] was created by [prepare_publishers]
    for a topic of [topics]. *)
Definition created_for (topics : list TopicMetadata) (topic_name : string)
    (p : GenericPublisher) : Prop :=
  passes_filter topic_name = true ∧
  ∃ topic, topic ∈ topics ∧ name topic = topic_name ∧
    create_generic_publisher setup (name topic) (type topic)
      (publisher_qos_for_topic lib topic
         (topic_qos_profile_overrides_ setup)).2 = inr p.

(** From [s] to [s'] the publishers grew by publishers created for
    [topics]; the reader, the queue and what was published are the
    same. *)
Definition grown (topics : list TopicMetadata) (s s' : t) : Prop :=
  (∀ k p, publishers_ s !! k = Some p → publishers_ s' !! k = Some p) ∧
  (∀ k p, publishers_ s' !! k = Some p →
          publishers_ s !! k = Some p ∨ created_for topics k p) ∧
  reader_ s' = reader_ s ∧ published s' = published s ∧
  message_queue_ s' = message_queue_ s.

End Prepare.

End Publishers.

(** ** Recording engine: discovery (recorder.cpp) *)

Module Discovery.

Import Recorder.

(** The writer was told of every subscribed topic. *)
Definition writer_knows_subscriptions (s : t) : Prop :=
  ∀ topic_name, is_Some (subscriptions_ s !! topic_name) →
                topic_name ∈ name <$> Writer.topics (writer_ s).

(** The publisher [new_profile] cannot be heard by a subscription made with
    [used_profile]: the test of [warn_if_new_qos_for_subscribed_topic]. *)
Definition incompatible (used_profile new_profile : Qos.t) : bool :=
  Qos.is_best_effort (Qos.reliability new_profile) &&
  negb (Qos.is_best_effort (Qos.reliability used_profile)) ||
  Qos.is_volatile (Qos.durability new_profile) &&
  negb (Qos.is_volatile (Qos.durability used_profile)).

(** The line [warn_if_new_qos_for_subscribed_topic] sends to the logger for
    an incompatible publisher: the test of the reliability comes first. *)
Definition warning_line (topic_name : string) (used new_profile : Qos.t)
    : severity * string :=
  if Qos.is_best_effort (Qos.reliability new_profile) &&
     negb (Qos.is_best_effort (Qos.reliability used))
  then (WARN, reliability_warning topic_name)
  else (WARN, durability_warning topic_name).

Section Node.

Variable lib : Qos.Library.

(** [Recorder::get_missing_topics]; the topics, a map in the source, are
    listed once each. *)
Definition get_missing_topics (all_topics : list (string * string)) (s : t)
    : list (string * string) :=
  filter (λ i, subscriptions_ s !! i.1 = None) all_topics.

(** One turn of the loop of [Recorder::topics_discovery], on the graph
    [env] of that moment. *)
Definition discovery_round (env : Middleware) (s : t) : t :=
  let topics_to_subscribe := get_requested_or_available_topics env in
  let s :=
    foldl (λ s topic_and_type,
             warn_if_new_qos_for_subscribed_topic env topic_and_type.1 s)
          s topics_to_subscribe in
  let missing_topics := get_missing_topics topics_to_subscribe s in
  subscribe_topics lib env missing_topics s.

(** [Recorder::topics_discovery]: [requested] is [record_options_.topics]
    and [rounds] the graph at each turn of the loop, until the node is
    stopped. *)
Fixpoint topics_discovery (requested : list string)
    (rounds : list Middleware) (s : t) : t :=
  match rounds with
  | [] => s
  | env :: later =>
      let s := discovery_round env s in
      if negb (bool_decide (requested = [])) &&
         bool_decide (size (subscriptions_ s) = length requested)
      then
        add_log INFO
          "All requested topics are subscribed. Stopping discovery..." s
      else topics_discovery requested later s
  end.

End Node.

End Discovery.

(** ** Concrete bags used to run the definitions *)

Module Scenario.

(** Scenario "Rewrite merge" of the specification: A = [(x,10),(x,30)],
    B = [(y,20),(y,40)], one output. *)
Definition x10 : Msg := mkMsg "x" [] 10.
Definition x30 : Msg := mkMsg "x" [] 30.
Definition y20 : Msg := mkMsg "y" [] 20.
Definition y40 : Msg := mkMsg "y" [] 40.
Definition bag_A : Reader.t := Reader.open [x10; x30].
Definition bag_B : Reader.t := Reader.open [y20; y40].
Definition out_bag : Writer.t := Writer.mk (Some ("cdr", "cdr")) [] [].

(** Scenario "Play-next while paused" of the specification: a bag with
    time stamps 10, 20 and 30, the player paused and ready, the producer
    task running. *)
Definition a10 : Msg := mkMsg "/a" [] 10.
Definition a20 : Msg := mkMsg "/a" [] 20.
Definition a30 : Msg := mkMsg "/a" [] 30.

Definition paused_player (bag queue : list Msg) (topics : list string)
    (future : Player.future_state) (ok : bool) : Player.t :=
  Player.mk (Reader.open bag) (Clock.mk true 10 []) queue
    (list_to_map ((λ n, (n, Player.mkPublisher n)) <$> topics))
    10 (Player.mkOptions 1000 false 0) future
    true 0 false false ok [] [].

Definition stepping_player : Player.t :=
  paused_player [a10; a20; a30] [] ["/a"%string] Player.TaskRunning true.

(** A message on a topic that has no publisher, at the head of the queue
    of a paused player. *)
Definition x7 : Msg := mkMsg "/x" [] 7.

Definition unheard_player : Player.t :=
  paused_player [] [x7] [] Player.NoTask true.

(** Scenario "Seek" of the specification: a bag with time stamps 10 to 50.
    Here the producer task has finished. *)
Definition a40 : Msg := mkMsg "/a" [] 40.
Definition a50 : Msg := mkMsg "/a" [] 50.

Definition finished_player (ok : bool) : Player.t :=
  Player.set_reader_ (Reader.mk [a10; a20; a30; a40; a50] [])
    (paused_player [] [] ["/a"%string] Player.NoTask ok).

(** A storage whose [seek] fails. *)
Definition failing_seek : Z → M Player.t unit :=
  λ _, throw (runtime_error "database disk image is malformed").

(** A stand-in for the QoS library, to run the definitions. *)
Definition reliable : Qos.t :=
  Qos.mk 10 Qos.RELIABILITY_RELIABLE Qos.DURABILITY_VOLATILE.
Definition best_effort : Qos.t :=
  Qos.mk 10 Qos.RELIABILITY_BEST_EFFORT Qos.DURABILITY_VOLATILE.

Definition toy_library : Qos.Library :=
  Qos.mkLibrary reliable
    (λ text, if bool_decide (text = "best_effort"%string)
             then [best_effort] else [reliable])
    (λ profiles, pretty (length profiles))
    (λ _ offers, default reliable (head offers))
    (λ _ offers, default reliable (head offers)).

(** A topic with two publishers that offer best-effort reliability, and a
    recorder subscribed to it with a reliable request. *)
Definition two_best_effort_publishers : Recorder.Middleware :=
  Recorder.mkMiddleware "cdr" [("/t", "std_msgs/msg/String")]%string
    (λ _, [best_effort; best_effort])
    (λ _ topic_type qos, Some (Recorder.mkSubscription topic_type qos))
    None.

Definition fresh_recorder (format : string) : Recorder.t :=
  Recorder.mk (Writer.mk None [] [])
    (Recorder.mkStorageOptions false)
    (Recorder.mkRecordOptions format false ∅)
    ∅ ∅ ∅ "" false false [].

Definition subscribed_recorder : Recorder.t :=
  Recorder.set_subscriptions_
    {[ "/t"%string := Recorder.mkSubscription "std_msgs/msg/String" reliable ]}
    (fresh_recorder "cdr").

End Scenario.

(** ** More concrete states *)

Module Samples.

(** A bag that is not in time order, and a second bag. *)
Definition unsorted_bag : Reader.t :=
  Reader.open [Scenario.x30; Scenario.x10].
Definition other_bag : Reader.t := Reader.open [Scenario.y20].

(** A message on a topic without publisher between two messages that
    have one. *)
Definition b15 : Msg := mkMsg "/b" [] 15.

(** A player that is not paused, about to play the bag
    [a10; b15; a20], with a publisher for "/a" only. *)
Definition running_player : Player.t :=
  Player.set_clock_ (Clock.mk false 10 [])
    (Scenario.paused_player [Scenario.a10; b15; Scenario.a20] []
       ["/a"%string] Player.TaskRunning true).

(** A clock that reaches every time when it is not paused, and none when
    it is. *)
Definition sleep_until : Z → Player.t → bool :=
  λ _ s, negb (Clock.is_paused (Player.clock_ s)).

(** A catalog of three topics; the play options let "/a" and "/c"
    through, and the transport knows no type for "/c". *)
Definition topic_a : TopicMetadata :=
  mkTopic "/a" "std_msgs/msg/String" "cdr" "".
Definition topic_b : TopicMetadata :=
  mkTopic "/b" "std_msgs/msg/String" "cdr" "".
Definition topic_c : TopicMetadata :=
  mkTopic "/c" "unknown_msgs/msg/Thing" "cdr" "".

Definition filtering_setup : Publishers.Setup :=
  Publishers.mkSetup ["/a"; "/c"]%string None ∅ [topic_a; topic_b; topic_c]
    (λ topic_name topic_type _,
       if bool_decide (topic_type = "unknown_msgs/msg/Thing"%string)
       then inl (runtime_error "type support not found")
       else inr (Player.mkPublisher topic_name))
    None (λ _, None).

(** A player without publishers, on a bag with messages of "/a" and "/b". *)
Definition unprepared_player : Player.t :=
  Scenario.paused_player [Scenario.a10; b15; Scenario.a20] [] []
    Player.NoTask true.


(** The catalog with a topic whose offered profiles do not parse. *)
Definition topic_d : TopicMetadata :=
  mkTopic "/d" "std_msgs/msg/String" "cdr" "- history: [".

Definition unparseable_setup : Publishers.Setup :=
  Publishers.mkSetup [] None ∅ [topic_d; topic_a]
    (λ topic_name _ _, inr (Player.mkPublisher topic_name))
    None
    (λ text, if bool_decide (text = "- history: ["%string)
             then Some (runtime_error "bad conversion") else None).

(** A storage that cannot be opened, on the graph of the topic "/t". *)
Definition unwritable_storage : Recorder.Middleware :=
  Recorder.mkMiddleware "cdr" [("/t", "std_msgs/msg/String")]%string
    (λ _, []) (λ _ topic_type qos,
                 Some (Recorder.mkSubscription topic_type qos))
    (Some (runtime_error "Could not open the storage")).

(** A graph with the topic "/t", on which no subscription can be made. *)
Definition refusing_middleware : Recorder.Middleware :=
  Recorder.mkMiddleware "cdr" [("/t", "std_msgs/msg/String")]%string
    (λ _, []) (λ _ _ _, None) None.

Definition topic_t : TopicMetadata :=
  mkTopic "/t" "std_msgs/msg/String" "cdr" "".

End Samples.

(** * Properties *)

(** ** Sequencing in the monad *)

Section MonadFacts.

Context {S A B : Type}.

Lemma bind_returns (m : M S A) (f : A → M S B) s a s1 :
  m s = Ret a s1 → (m ≫= f) s = f a s1.
Proof. unfold mbind, M_bind. by intros ->. Qed.

Lemma bind_inv (m : M S A) (f : A → M S B) s b s' :
  (m ≫= f) s = Ret b s' → ∃ a s1, m s = Ret a s1 ∧ f a s1 = Ret b s'.
Proof.
  unfold mbind, M_bind. destruct (m s) as [a s1| | |]; [eauto|done..].
Qed.

End MonadFacts.

(** ** Rewrite merger *)

Section RewriteFacts.

Import Rewrite.

Lemma insert_middle {A} (l1 l2 : list A) (x y : A) (n : nat) :
  n = length l1 → <[n:=y]> (l1 ++ x :: l2) = l1 ++ y :: l2.
Proof.
  intros ->. rewrite insert_app_r_alt by lia. by rewrite Nat.sub_diag.
Qed.

Lemma refill_app (ms : slots) : ∀ (bs bpre : list Reader.t) (mpre : slots),
  length bpre = length mpre → length bs = length ms →
  refill (length ms) (length mpre) (bpre ++ bs) (mpre ++ ms) =
  Some (bpre ++ zip_with (λ b s, (refill_slot b s).1) bs ms,
        mpre ++ zip_with (λ b s, (refill_slot b s).2) bs ms).
Proof.
  induction ms as [|s ms IH]; intros bs bpre mpre Hpre Hlen.
  - destruct bs; [|done]. by rewrite !app_nil_r.
  - destruct bs as [|b bs]; [done|]. simpl in Hlen.
    cbn [length refill]. rewrite (list_lookup_middle mpre) by done.
    cbn [mbind option_bind].
    assert (Hstep : ∀ b' s',
      refill (length ms) (S (length mpre))
             (bpre ++ b' :: bs) (mpre ++ s' :: ms) =
      Some (bpre ++ b' :: zip_with (λ b s, (refill_slot b s).1) bs ms,
            mpre ++ s' :: zip_with (λ b s, (refill_slot b s).2) bs ms)).
    { intros b' s'.
      rewrite (cons_middle b' bpre), (cons_middle s' mpre), !app_assoc.
      replace (S (length mpre)) with (length (mpre ++ [s']))
        by (rewrite length_app; simpl; lia).
      rewrite IH; [|rewrite !length_app; simpl; lia|lia].
      by rewrite <- !app_assoc. }
    destruct s as [m|]; [by rewrite Hstep|].
    rewrite (list_lookup_middle bpre) by done. cbn [mbind option_bind].
    cbn [zip_with]. unfold Reader.has_next, Reader.read_next.
    destruct (Reader.unread b) as [|m rest] eqn:Hb.
    + assert (refill_slot b None = (b, None)) as ->
        by (unfold refill_slot; by rewrite Hb).
      by rewrite Hstep.
    + assert (refill_slot b None =
              (Reader.mk (Reader.storage b) rest, Some m)) as ->
        by (unfold refill_slot; by rewrite Hb).
      cbn [mbind option_bind].
      rewrite (insert_middle bpre), (insert_middle mpre) by done.
      by rewrite Hstep.
Qed.

Lemma refill_all (bags : list Reader.t) (msgs : slots) :
  length bags = length msgs →
  refill (length msgs) 0 bags msgs =
  Some (refilled_bags bags msgs, refilled_slots bags msgs).
Proof. intros Hlen. by apply (refill_app msgs bags [] []). Qed.

Lemma length_refilled_bags (bags : list Reader.t) (msgs : slots) :
  length bags = length msgs → length (refilled_bags bags msgs) = length msgs.
Proof. intros. unfold refilled_bags. rewrite length_zip_with. lia. Qed.

Lemma length_refilled_slots (bags : list Reader.t) (msgs : slots) :
  length bags = length msgs → length (refilled_slots bags msgs) = length msgs.
Proof. intros. unfold refilled_slots. rewrite length_zip_with. lia. Qed.

Lemma find_earliest_inv (n : nat) : ∀ (i : nat) (heads : slots) e idx,
  (i + n = length heads)%nat → earliest_upto i heads e idx →
  ∃ e' idx', find_earliest n i heads e idx = Some (e', idx') ∧
             earliest_upto (length heads) heads e' idx'.
Proof.
  induction n as [|n IH]; intros i heads e idx Hlen Hinv.
  - exists e, idx. split; [done|]. by replace (length heads) with i by lia.
  - cbn [find_earliest].
    destruct (lookup_lt_is_Some_2 heads i) as [slot Hslot]; [lia|].
    rewrite Hslot. cbn [mbind option_bind].
    destruct slot as [m|]; [destruct e as [e|]|].
    + (* a message in slot i, compared with the earliest so far *)
      destruct Hinv as (j & -> & Hj & Hjm & Hmin).
      case_bool_decide as Hlt; apply IH; try lia.
      * exists i. split_and!; [done|lia|done|].
        intros k m' Hk Hkm. destruct (decide (k = i)) as [->|Hne].
        -- rewrite Hslot in Hkm. injection Hkm as ->. lia.
        -- destruct (Hmin k m') as [Hle _]; [lia|done|lia].
      * exists j. split_and!; [done|lia|done|].
        intros k m' Hk Hkm. destruct (decide (k = i)) as [->|Hne].
        -- rewrite Hslot in Hkm. injection Hkm as ->. lia.
        -- apply Hmin; [lia|done].
    + (* the first message found *)
      destruct Hinv as [-> Hnone]. apply IH; [lia|].
      exists i. split_and!; [done|lia|done|].
      intros k m' Hk Hkm. destruct (decide (k = i)) as [->|Hne].
      * rewrite Hslot in Hkm. injection Hkm as ->. lia.
      * destruct (Hnone k m'); [lia|done].
    + (* an empty slot: [continue] *)
      apply IH; [lia|]. destruct e as [e|].
      * destruct Hinv as (j & -> & Hj & Hjm & Hmin).
        exists j. split_and!; [done|lia|done|].
        intros k m' Hk Hkm. destruct (decide (k = i)) as [->|Hne].
        -- congruence.
        -- apply Hmin; [lia|done].
      * destruct Hinv as [-> Hnone]. split; [done|].
        intros k m' Hk. destruct (decide (k = i)) as [->|Hne]; [congruence|].
        apply Hnone. lia.
Qed.

Lemma find_earliest_all (heads : slots) :
  ∃ e idx,
    find_earliest (length heads) 0 heads None size_t_minus_one = Some (e, idx) ∧
    earliest_upto (length heads) heads e idx.
Proof.
  apply find_earliest_inv; [done|]. split; [done|]. intros k m' Hk. lia.
Qed.

(** What [get_next] returns once its loops are replaced by what they
    compute. *)
Lemma get_next_spec (bags : list Reader.t) (msgs : slots) :
  length bags = length msgs →
  let bags1 := refilled_bags bags msgs in
  let heads := refilled_slots bags msgs in
  ((∀ k m, heads !! k ≠ Some (Some m)) ∧
   get_next bags msgs = Some (None, bags1, heads)) ∨
  (∃ j m, earliest_head heads j m ∧
          find_earliest (length heads) 0 heads None size_t_minus_one =
            Some (Some m, Z.of_nat j) ∧
          get_next bags msgs = Some (Some m, bags1, <[j:=None]> heads)).
Proof.
  intros Hlen bags1 heads. unfold get_next.
  rewrite refill_all by done. cbn [mbind option_bind].
  fold bags1 heads.
  destruct (find_earliest_all heads) as (e & idx & -> & Hinv).
  cbn [mbind option_bind]. destruct e as [m|].
  - right. destruct Hinv as (j & -> & Hj & Hjm & Hmin).
    exists j, m. split_and!; [|done|].
    + split; [done|]. intros k m' Hkm.
      apply Hmin; [|done]. by eapply lookup_lt_Some.
    + unfold reset_slot. rewrite bool_decide_true by lia.
      cbn [mbind option_bind]. by rewrite Nat2Z.id.
  - left. destruct Hinv as [-> Hnone]. split; [|done].
    intros k m Hkm. eapply Hnone; [|done]. by eapply lookup_lt_Some.
Qed.

(** *** The lanes *)

Lemma refill_slot_lane (b : Reader.t) (s : option Msg) :
  pending_at (refill_slot b s).1 (refill_slot b s).2 = pending_at b s.
Proof.
  unfold refill_slot, pending_at. destruct s as [m|]; [done|].
  by destruct (Reader.unread b) eqn:Hb; simpl; rewrite ?Hb.
Qed.

Lemma refill_slot_head (b : Reader.t) (s : option Msg) :
  match (refill_slot b s).2 with
  | Some m => pending_at b s = m :: Reader.unread (refill_slot b s).1
  | None => pending_at b s = []
  end.
Proof.
  unfold refill_slot, pending_at. destruct s as [m|]; [done|].
  by destruct (Reader.unread b) eqn:Hb; simpl; rewrite ?Hb.
Qed.

Lemma lanes_refilled (bags : list Reader.t) : ∀ msgs : slots,
  lanes (refilled_bags bags msgs) (refilled_slots bags msgs) = lanes bags msgs.
Proof.
  induction bags as [|b bags IH]; intros [|s msgs]; try done.
  unfold lanes, refilled_bags, refilled_slots in *. cbn [zip_with].
  by rewrite refill_slot_lane, IH.
Qed.

Lemma lanes_lookup (bags : list Reader.t) (msgs : slots) k lane :
  lanes bags msgs !! k = Some lane →
  ∃ b s, bags !! k = Some b ∧ msgs !! k = Some s ∧ lane = pending_at b s.
Proof.
  unfold lanes. rewrite lookup_zip_with_Some.
  intros (b & s & -> & Hb & Hs). by exists b, s.
Qed.

Lemma refilled_slots_lookup (bags : list Reader.t) (msgs : slots) k b s :
  bags !! k = Some b → msgs !! k = Some s →
  refilled_slots bags msgs !! k = Some (refill_slot b s).2 ∧
  refilled_bags bags msgs !! k = Some (refill_slot b s).1.
Proof.
  intros Hb Hs. unfold refilled_slots, refilled_bags.
  rewrite !lookup_zip_with, Hb, Hs. done.
Qed.

(** After the refill, a lane that is not empty has its head in its slot. *)
Lemma lane_head_in_slot (bags : list Reader.t) (msgs : slots) k m rest :
  lanes bags msgs !! k = Some (m :: rest) →
  refilled_slots bags msgs !! k = Some (Some m).
Proof.
  intros (b & s & Hb & Hs & Hlane)%lanes_lookup.
  destruct (refilled_slots_lookup bags msgs k b s Hb Hs) as [-> _].
  pose proof (refill_slot_head b s) as Hhd.
  destruct (refill_slot b s).2; congruence.
Qed.

Lemma slot_is_lane_head (bags : list Reader.t) (msgs : slots) k m :
  length bags = length msgs →
  refilled_slots bags msgs !! k = Some (Some m) →
  ∃ b1, refilled_bags bags msgs !! k = Some b1 ∧
        lanes bags msgs !! k = Some (m :: Reader.unread b1).
Proof.
  intros Hlen Hk.
  assert (k < length msgs)%nat as Hlt.
  { apply lookup_lt_Some in Hk. by rewrite length_refilled_slots in Hk. }
  destruct (lookup_lt_is_Some_2 msgs k) as [s Hs]; [done|].
  destruct (lookup_lt_is_Some_2 bags k) as [b Hb]; [lia|].
  destruct (refilled_slots_lookup bags msgs k b s Hb Hs) as [Hk' Hb1].
  exists (refill_slot b s).1. split; [done|].
  unfold lanes. rewrite lookup_zip_with, Hb, Hs. cbn.
  pose proof (refill_slot_head b s) as Hhd.
  rewrite Hk in Hk'. injection Hk' as Hk'. rewrite <- Hk' in Hhd.
  by rewrite Hhd.
Qed.

Lemma no_head_no_lane (bags : list Reader.t) (msgs : slots) :
  (∀ k m, refilled_slots bags msgs !! k ≠ Some (Some m)) →
  concat (lanes bags msgs) = [].
Proof.
  intros Hnone. apply concat_nil_Forall, Forall_lookup. intros k lane Hk.
  destruct lane as [|m rest]; [done|].
  by apply lane_head_in_slot, Hnone in Hk.
Qed.

Lemma lanes_reset (bags : list Reader.t) : ∀ (heads : slots) j m,
  heads !! j = Some (Some m) →
  ∀ b, bags !! j = Some b →
  lanes bags (<[j:=None]> heads) = <[j:=Reader.unread b]> (lanes bags heads).
Proof.
  induction bags as [|b0 bags IH]; intros [|h heads] j m Hj b Hb; try done.
  destruct j as [|j]; simpl in *.
  - by simplify_eq.
  - unfold lanes in *. cbn [zip_with]. simpl. f_equal. by eapply IH.
Qed.

Lemma lanes_nil_all_messages (bags : list Reader.t) : ∀ msgs : slots,
  length bags = length msgs → concat (lanes bags msgs) = [] →
  all_messages bags = [].
Proof.
  unfold all_messages, lanes.
  induction bags as [|b bags IH]; intros [|s msgs] Hlen Hnil; try done.
  simpl in *. apply app_eq_nil in Hnil as [Hb Hnil].
  unfold pending_at in Hb. apply app_eq_nil in Hb as [_ ->].
  simpl. apply (IH msgs); [lia|done].
Qed.

Lemma lanes_initial (bags : list Reader.t) :
  lanes bags (replicate (length bags) None) = Reader.unread <$> bags.
Proof.
  unfold lanes. induction bags as [|b bags IH]; [done|].
  simpl. by rewrite IH.
Qed.

(** *** The merge of the specification *)

Lemma elem_of_concat {A} (ls : list (list A)) (x : A) :
  x ∈ concat ls ↔ ∃ l, l ∈ ls ∧ x ∈ l.
Proof.
  rewrite list_elem_of_In, in_concat.
  by setoid_rewrite list_elem_of_In.
Qed.

Lemma concat_insert_head {A} (lns : list (list A)) : ∀ j (x : A) rest,
  lns !! j = Some (x :: rest) →
  concat lns ≡ₚ x :: concat (<[j:=rest]> lns).
Proof.
  induction lns as [|l lns IH]; intros [|j] x rest Hj; try done.
  - simpl in *. by simplify_eq.
  - simpl in *. rewrite (IH j x rest Hj). by rewrite Permutation_middle.
Qed.

Lemma merges_perm lns out : merges lns out → out ≡ₚ concat lns.
Proof.
  induction 1 as [lns Hnil|lns j m rest out Hj Hmin Hrec IH].
  - by rewrite Hnil.
  - by rewrite (concat_insert_head lns j m rest Hj), IH.
Qed.

Lemma merges_sorted lns out :
  Forall (λ l, StronglySorted Z.le (time_stamp <$> l)) lns →
  merges lns out → StronglySorted Z.le (time_stamp <$> out).
Proof.
  intros Hsorted Hm. induction Hm as [lns Hnil|lns j m rest out Hj Hmin Hrec IH].
  - constructor.
  - pose proof (Forall_lookup_1 _ _ _ _ Hsorted Hj) as Hlane.
    cbn beta in Hlane.
    rewrite fmap_cons in *. apply StronglySorted_inv in Hlane as [Hrest _].
    constructor.
    + apply IH. by apply Forall_insert.
    + apply Forall_fmap, Forall_forall. intros x Hx. simpl.
      assert (x ∈ concat lns) as Hin.
      { rewrite (concat_insert_head lns j m rest Hj). right.
        by rewrite <- (merges_perm _ _ Hrec). }
      apply elem_of_concat in Hin as (lane & Hlane & Hxl).
      apply list_elem_of_lookup in Hlane as [k Hk].
      destruct lane as [|m' rest']; [by apply elem_of_nil in Hxl|].
      destruct (Hmin k m' rest' Hk) as [Hle _].
      pose proof (Forall_lookup_1 _ _ _ _ Hsorted Hk) as Hsk.
      cbn beta in Hsk. rewrite fmap_cons in Hsk. apply StronglySorted_inv in Hsk as [_ Hall].
      apply elem_of_cons in Hxl as [->|Hxl]; [done|].
      rewrite Forall_fmap, Forall_forall in Hall.
      specialize (Hall x Hxl). simpl in Hall. lia.
Qed.

Lemma lanes_nil_iff (bags : list Reader.t) : ∀ msgs : slots,
  length bags = length msgs →
  concat (lanes bags msgs) = [] ↔
  Forall (.= None) msgs ∧ Forall (λ b, Reader.has_next b = false) bags.
Proof.
  unfold lanes.
  induction bags as [|b bags IH]; intros [|s msgs] Hlen; try done.
  simpl in Hlen. cbn [zip_with concat].
  rewrite !Forall_cons, app_nil, (IH msgs) by lia. clear IH.
  unfold pending_at, Reader.has_next.
  destruct s as [m|], (Reader.unread b) as [|m' rest]; simpl;
    intuition congruence.
Qed.

(** *** The loop of [rewrite] *)

Lemma extend_nil (ws : list Writer.t) : Writer.extend [] <$> ws = ws.
Proof.
  rewrite <- (list_fmap_id ws) at 2. apply list_fmap_ext.
  intros _ [o t w] _. unfold Writer.extend. simpl. by rewrite app_nil_r.
Qed.

Lemma extend_write (m : Msg) (out : list Msg) (ws : list Writer.t) :
  Writer.extend out <$> (Writer.write m <$> ws) =
  Writer.extend (m :: out) <$> ws.
Proof.
  rewrite <- list_fmap_compose. apply list_fmap_ext.
  intros _ [o t w] _. unfold Writer.extend, Writer.write. simpl.
  by rewrite <- app_assoc.
Qed.

Lemma rewrite_loop_spec (fuel : nat) :
  ∀ (bags : list Reader.t) (msgs : slots) (writers : list Writer.t),
  length bags = length msgs →
  (length (concat (lanes bags msgs)) < fuel)%nat →
  ∃ out bags',
    rewrite_loop fuel bags msgs writers =
      Ret () (bags', Writer.extend out <$> writers) ∧
    merges (lanes bags msgs) out ∧
    all_messages bags' = [].
Proof.
  induction fuel as [|fuel IH]; intros bags msgs writers Hlen Hfuel; [lia|].
  cbn [rewrite_loop].
  destruct (get_next_spec bags msgs Hlen) as
    [[Hnone ->]|(j & m & [Hjm Hmin] & _ & ->)].
  - exists [], (refilled_bags bags msgs). rewrite extend_nil.
    pose proof (no_head_no_lane _ _ Hnone) as Hnil.
    split_and!; [done|by constructor|].
    apply (lanes_nil_all_messages _ (refilled_slots bags msgs)).
    + by rewrite length_refilled_bags, length_refilled_slots.
    + by rewrite lanes_refilled.
  - destruct (slot_is_lane_head _ _ _ _ Hlen Hjm) as (b1 & Hb1 & Hlane).
    pose proof (lanes_reset _ _ _ _ Hjm _ Hb1) as Hreset.
    rewrite lanes_refilled in Hreset.
    pose proof (concat_insert_head _ _ _ _ Hlane) as Hperm.
    apply Permutation_length in Hperm. simpl in Hperm.
    destruct (IH (refilled_bags bags msgs)
                 (<[j:=None]> (refilled_slots bags msgs))
                 (Writer.write m <$> writers))
      as (out & bags' & -> & Hmerge & Hdone).
    { by rewrite length_insert, length_refilled_bags, length_refilled_slots. }
    { rewrite Hreset. lia. }
    exists (m :: out), bags'. rewrite extend_write. split_and!; [done| |done].
    apply (merges_emit _ j m (Reader.unread b1)); [done| |by rewrite <- Hreset].
    intros k m' rest' Hk. apply Hmin. by eapply lane_head_in_slot.
Qed.

Lemma rewrite_loop_never_throws (fuel : nat) :
  ∀ (bags : list Reader.t) (msgs : slots) (writers : list Writer.t) e s,
  rewrite_loop fuel bags msgs writers ≠ Raise e s.
Proof.
  induction fuel as [|fuel IH]; intros bags msgs writers e s; [done|].
  cbn [rewrite_loop].
  destruct (get_next bags msgs) as [[[[m|] bags'] msgs']|];
    first [apply IH | done].
Qed.

Example rewrite_merge_scenario :
  Rewrite.rewrite 5 [Scenario.bag_A; Scenario.bag_B] [Scenario.out_bag] =
  Ret () ([Reader.mk [Scenario.x10; Scenario.x30] [];
           Reader.mk [Scenario.y20; Scenario.y40] []],
          [Writer.extend
             [Scenario.x10; Scenario.y20; Scenario.x30; Scenario.y40]
             Scenario.out_bag]).
Proof. reflexivity. Qed.

(** Equal time stamps: the reader with the smallest index goes first. *)
Example get_next_tie :
  get_next [Reader.open [mkMsg "b" [] 7]; Reader.open [mkMsg "a" [] 7]]
           [None; None] =
  Some (Some (mkMsg "b" [] 7),
        [Reader.mk [mkMsg "b" [] 7] []; Reader.mk [mkMsg "a" [] 7] []],
        [None; Some (mkMsg "a" [] 7)]).
Proof. reflexivity. Qed.

(** C1: for non-empty readers (and writers) whose message sequences have
    non-decreasing time stamps, [rewrite] returns having appended to every
    writer one and the same sequence [out], which is a permutation of all
    the messages of the readers, has non-decreasing time stamps, and is
    built by always emitting the head with the smallest time stamp, the
    smallest reader index breaking ties ([merges]). *)
Theorem rewrite_emits_time_ordered_merge (fuel : nat)
    (input_bags : list Reader.t) (output_bags : list Writer.t) :
  input_bags ≠ [] → output_bags ≠ [] →
  Forall (λ r, time_ordered (Reader.unread r)) input_bags →
  (length (all_messages input_bags) < fuel)%nat →
  ∃ out bags',
    rewrite fuel input_bags output_bags =
      Ret () (bags', Writer.extend out <$> output_bags) ∧
    all_messages bags' = [] ∧
    out ≡ₚ all_messages input_bags ∧
    time_ordered out ∧
    merges (Reader.unread <$> input_bags) out.
Proof.
  intros Hin Hout Hsorted Hfuel. unfold rewrite.
  rewrite !bool_decide_false by done. cbn [orb].
  destruct (rewrite_loop_spec fuel input_bags
              (replicate (length input_bags) None) output_bags)
    as (out & bags' & Hrun & Hmerge & Hdone).
  { by rewrite length_replicate. }
  { by rewrite lanes_initial. }
  rewrite lanes_initial in Hmerge.
  exists out, bags'. split_and!; [done|done| | |done].
  - by apply merges_perm.
  - apply StronglySorted_Sorted.
    eapply merges_sorted; [|exact Hmerge].
    apply Forall_fmap. eapply Forall_impl; [exact Hsorted|].
    intros r Hr. by apply Sorted_StronglySorted; [intros ???; lia|].
Qed.

Lemma rewrite_emits_time_ordered_merge_witness :
  ∃ out bags',
    rewrite 5 [Scenario.bag_A; Scenario.bag_B] [Scenario.out_bag] =
      Ret () (bags', Writer.extend out <$> [Scenario.out_bag]) ∧
    all_messages bags' = [] ∧
    out ≡ₚ all_messages [Scenario.bag_A; Scenario.bag_B] ∧
    time_ordered out ∧
    merges (Reader.unread <$> [Scenario.bag_A; Scenario.bag_B]) out.
Proof.
  apply (rewrite_emits_time_ordered_merge 5); [done|done| |simpl; lia].
  repeat constructor; unfold Z.le; simpl; discriminate.
Defined.

(** C2: [rewrite] throws, with the readers and writers untouched, when the
    vector of readers or the vector of writers is empty; and it throws
    nothing when both are non-empty. *)
Theorem rewrite_throws_iff_no_bag (fuel : nat)
    (input_bags : list Reader.t) (output_bags : list Writer.t) :
  (input_bags = [] ∨ output_bags = [] →
   rewrite fuel input_bags output_bags =
     Raise (runtime_error
              "Must provide at least one input and one output bag to rewrite.")
           (input_bags, output_bags)) ∧
  (input_bags ≠ [] → output_bags ≠ [] →
   ∀ e s, rewrite fuel input_bags output_bags ≠ Raise e s).
Proof.
  unfold rewrite. split.
  - intros [-> | ->]; [done|]. by rewrite orb_true_r.
  - intros Hin Hout e s. rewrite !bool_decide_false by done. cbn [orb].
    apply rewrite_loop_never_throws.
Qed.

Lemma rewrite_throws_iff_no_bag_witness :
  rewrite 5 [] [Scenario.out_bag] =
    Raise (runtime_error
             "Must provide at least one input and one output bag to rewrite.")
          ([], [Scenario.out_bag]) ∧
  rewrite 5 [Scenario.bag_A] [] =
    Raise (runtime_error
             "Must provide at least one input and one output bag to rewrite.")
          ([Scenario.bag_A], []) ∧
  ∀ e s, rewrite 5 [Scenario.bag_A] [Scenario.out_bag] ≠ Raise e s.
Proof.
  split_and!.
  - apply (rewrite_throws_iff_no_bag 5 [] [Scenario.out_bag]). by left.
  - apply (rewrite_throws_iff_no_bag 5 [Scenario.bag_A] []). by right.
  - by apply (rewrite_throws_iff_no_bag 5 [Scenario.bag_A] [Scenario.out_bag]).
Defined.

(** C10: with one slot per reader, [get_next] makes no out-of-range
    access.  It returns null exactly when every slot is empty and every
    reader is exhausted, and the search loop then still holds the index
    [size_t(-1)], which is not used.  When it returns a message, the index
    found is a position of the vector, the slot at that position held the
    message and is cleared, and the message is removed from what remains to
    be returned: it cannot be returned again. *)
Theorem get_next_index_safe_and_linear
    (input_bags : list Reader.t) (next_messages : slots) :
  length input_bags = length next_messages →
  let heads := refilled_slots input_bags next_messages in
  ∃ r bags' msgs' idx,
    get_next input_bags next_messages = Some (r, bags', msgs') ∧
    find_earliest (length heads) 0 heads None size_t_minus_one =
      Some (r, idx) ∧
    (r = None ↔
     Forall (.= None) next_messages ∧
     Forall (λ b, Reader.has_next b = false) input_bags) ∧
    (r = None → idx = size_t_minus_one ∧ msgs' = heads) ∧
    (∀ m, r = Some m →
       0 ≤ idx < Z.of_nat (length heads) ∧
       heads !! Z.to_nat idx = Some (Some m) ∧
       msgs' = <[Z.to_nat idx:=None]> heads ∧
       msgs' !! Z.to_nat idx = Some None ∧
       concat (lanes input_bags next_messages) ≡ₚ
         m :: concat (lanes bags' msgs')).
Proof.
  intros Hlen heads.
  pose proof (get_next_spec _ _ Hlen) as Hspec.
  cbv zeta in Hspec. fold heads in Hspec.
  destruct Hspec as [[Hnone Hget]|(j & m & [Hjm Hmin] & Hfind & Hget)].
  - pose proof (no_head_no_lane _ _ Hnone) as Hnil.
    destruct (find_earliest_all heads) as (e & idx & Hfind & Hinv).
    destruct e as [m|].
    { destruct Hinv as (j & _ & _ & Hjm & _). by apply Hnone in Hjm. }
    destruct Hinv as [-> _].
    exists None, (refilled_bags input_bags next_messages), heads,
      size_t_minus_one.
    split_and!; [done|done| |done|done].
    split; [intros _|done]. by apply lanes_nil_iff.
  - exists (Some m), (refilled_bags input_bags next_messages),
      (<[j:=None]> heads), (Z.of_nat j).
    pose proof (lookup_lt_Some _ _ _ Hjm) as Hlt.
    destruct (slot_is_lane_head _ _ _ _ Hlen Hjm) as (b1 & Hb1 & Hlane).
    split_and!; [done|done| |done|].
    + split; [done|]. intros Hall%lanes_nil_iff; [|done].
      apply (f_equal length) in Hall.
      rewrite (Permutation_length (concat_insert_head _ _ _ _ Hlane)) in Hall.
      done.
    + intros ? [= <-]. rewrite Nat2Z.id. split_and!; [lia|lia|done|done| |].
      * by rewrite list_lookup_insert_eq.
      * rewrite (lanes_reset _ _ _ _ Hjm _ Hb1). unfold heads.
        rewrite lanes_refilled. by apply concat_insert_head.
Qed.

Lemma get_next_index_safe_and_linear_witness :
  let bags := [Scenario.bag_A; Scenario.bag_B] in
  let msgs : slots := [None; None] in
  let heads := refilled_slots bags msgs in
  ∃ r bags' msgs' idx,
    get_next bags msgs = Some (r, bags', msgs') ∧
    find_earliest (length heads) 0 heads None size_t_minus_one =
      Some (r, idx) ∧
    (r = None ↔
     Forall (.= None) msgs ∧
     Forall (λ b, Reader.has_next b = false) bags) ∧
    (r = None → idx = size_t_minus_one ∧ msgs' = heads) ∧
    (∀ m, r = Some m →
       0 ≤ idx < Z.of_nat (length heads) ∧
       heads !! Z.to_nat idx = Some (Some m) ∧
       msgs' = <[Z.to_nat idx:=None]> heads ∧
       msgs' !! Z.to_nat idx = Some None ∧
       concat (lanes bags msgs) ≡ₚ m :: concat (lanes bags' msgs')).
Proof.
  apply (get_next_index_safe_and_linear
           [Scenario.bag_A; Scenario.bag_B] [None; None]).
  reflexivity.
Defined.

End RewriteFacts.

(** ** Playback engine *)

Section PlayerFacts.

Import Player.

Lemma same_session_refl s : same_session s s.
Proof. by repeat split. Qed.

Lemma same_session_trans s1 s2 s3 :
  same_session s1 s2 → same_session s2 s3 → same_session s1 s3.
Proof.
  unfold same_session. intros (?&?&?&?&?&?&?&?&?) (?&?&?&?&?&?&?&?&?).
  split_and!; congruence.
Qed.

Lemma enqueue_loop_same (n : nat) : ∀ s, same_session s (enqueue_loop n s).
Proof.
  induction n as [|n IH]; intros s; cbn [enqueue_loop].
  { apply same_session_refl. }
  unfold Reader.has_next, Reader.read_next.
  destruct (Reader.unread (reader_ s)) as [|m rest] eqn:Hunread; cbn.
  { apply same_session_refl. }
  eapply same_session_trans; [|apply IH].
  repeat split. unfold stream. cbn. by rewrite Hunread, <- app_assoc.
Qed.

Lemma enqueue_loop_queue (n : nat) : ∀ s,
  ∃ moved, message_queue_ (enqueue_loop n s) = message_queue_ s ++ moved ∧
           (Reader.has_next (reader_ s) = true → (0 < n)%nat → moved ≠ []).
Proof.
  induction n as [|n IH]; intros s; cbn [enqueue_loop].
  { exists []. split; [by rewrite app_nil_r|lia]. }
  unfold Reader.has_next, Reader.read_next.
  destruct (Reader.unread (reader_ s)) as [|m rest] eqn:Hunread; cbn.
  { exists []. split; [by rewrite app_nil_r|done]. }
  destruct (IH (set_message_queue_ (message_queue_ s ++ [m])
                  (set_reader_ (Reader.mk (Reader.storage (reader_ s)) rest) s)))
    as (moved & -> & _).
  exists (m :: moved). cbn. by rewrite <- app_assoc.
Qed.

Lemma load_storage_content_turn_same s :
  same_session s (load_storage_content_turn s).
Proof.
  unfold load_storage_content_turn, enqueue_up_to_boundary.
  destruct (storage_loading_future_ s); try apply same_session_refl.
  destruct (rclcpp_ok s); cbn; [|by repeat split].
  destruct (Reader.has_next (reader_ s)); cbn; [|by repeat split].
  case_bool_decide; [apply enqueue_loop_same|apply same_session_refl].
Qed.

Ltac mred_in H :=
  unfold mbind, M_bind, mret, M_ret, modify, gets, log, clock_jump,
    queue_peek, hang in H; cbn in H.

Lemma set_future_same v s : same_session s (set_storage_loading_future_ v s).
Proof. by repeat split. Qed.

Lemma add_log_same sev text s : same_session s (add_log sev text s).
Proof. by repeat split. Qed.

Lemma starved_poll_spec (fuel : nat) : ∀ mp s r s',
  mp = head (message_queue_ s) → starved_poll fuel mp s = Ret r s' →
  same_session s s' ∧ r = head (message_queue_ s').
Proof.
  induction fuel as [|fuel IH]; intros mp s r s' Hmp Hrun; [done|].
  cbn [starved_poll] in Hrun. destruct mp as [m|].
  { injection Hrun as <- <-. split; [apply same_session_refl|done]. }
  unfold mbind, M_bind, is_storage_completely_loaded in Hrun.
  destruct (storage_loading_future_ s) eqn:Hf; mred_in Hrun.
  - by injection Hrun as <- <-.
  - destruct (rclcpp_ok s); mred_in Hrun.
    + apply IH in Hrun as [Hsame ->]; [|done]. split; [|done].
      eapply same_session_trans; [apply load_storage_content_turn_same|done].
    + by injection Hrun as <- <-.
  - injection Hrun as <- <-. by split; [apply set_future_same|].
Qed.

Lemma peek_spec s mp s' :
  peek_next_message_from_queue s = Ret mp s' →
  same_session s s' ∧ mp = head (message_queue_ s').
Proof.
  unfold peek_next_message_from_queue. generalize starvation_polls.
  intros polls Hrun. unfold mbind, M_bind in Hrun. mred_in Hrun.
  destruct (message_queue_ s) as [|m rest] eqn:Hq; cbn in Hrun.
  2: { injection Hrun as <- <-. rewrite Hq. split; [apply same_session_refl|done]. }
  unfold is_storage_completely_loaded in Hrun.
  destruct (storage_loading_future_ s) eqn:Hf; mred_in Hrun.
  - rewrite Hq in Hrun. injection Hrun as <- <-. by rewrite Hq.
  - destruct (rclcpp_ok s); mred_in Hrun.
    + match type of Hrun with
      | match ?x with _ => _ end = _ => destruct x as [r s1| | |] eqn:Hpoll; try done
      end.
      apply starved_poll_spec in Hpoll as [Hsame ->]; [|by cbn; rewrite Hq].
      assert (same_session s s1) as Hsame'.
      { eapply same_session_trans; [apply add_log_same|done]. }
      destruct (message_queue_ s1) eqn:Hq1; cbn in Hrun;
        injection Hrun as <- <-; by rewrite ?Hq1.
    + rewrite Hq in Hrun. injection Hrun as <- <-. by rewrite Hq.
  - injection Hrun as <- <-. cbn. rewrite Hq. by split; [apply set_future_same|].
Qed.

Lemma starved_poll_total s fuel :
  message_queue_ s = [] → (1 ≤ queue_lower_boundary s)%nat →
  ∃ r s', starved_poll (S (S fuel)) None s = Ret r s'.
Proof.
  intros Hq Hlow. cbn [starved_poll].
  destruct (storage_loading_future_ s) eqn:Hf.
  - erewrite bind_returns by (unfold is_storage_completely_loaded; by rewrite Hf). cbn. eauto.
  - erewrite bind_returns by (unfold is_storage_completely_loaded; by rewrite Hf).
    erewrite bind_returns by reflexivity.
    destruct (rclcpp_ok s) eqn:Hok; cbn [negb andb]; [|cbn; eauto].
    erewrite bind_returns by reflexivity.
    erewrite bind_returns by reflexivity.
    unfold load_storage_content_turn. rewrite Hf, Hok. cbn [negb].
    destruct (Reader.has_next (reader_ s)) eqn:Hnext; cbn [negb].
    + rewrite bool_decide_true by (rewrite Hq; simpl; lia).
      unfold enqueue_up_to_boundary.
      assert (0 < queue_upper_boundary s - length (message_queue_ s))%nat
        as Hroom.
      { rewrite Hq. simpl.
        unfold queue_lower_boundary, queue_upper_boundary in *.
        assert (read_ahead_queue_size (play_options_ s) * 9 / 10
                ≤ read_ahead_queue_size (play_options_ s))%nat; [|lia].
        apply Nat.Div0.div_le_upper_bound. lia. }
      destruct (enqueue_loop_queue
                  (queue_upper_boundary s - length (message_queue_ s)) s)
        as (moved & Hmoved & Hne).
      destruct moved as [|m moved]; [by destruct Hne|].
      rewrite Hq in Hmoved at 2. simpl in Hmoved.
      rewrite Hmoved. cbn. eauto.
    + cbn. rewrite Hq. cbn. eauto.
  - erewrite bind_returns by (unfold is_storage_completely_loaded; by rewrite Hf). cbn. eauto.
Qed.

Lemma peek_total s :
  (1 ≤ queue_lower_boundary s)%nat →
  ∃ mp s', peek_next_message_from_queue s = Ret mp s'.
Proof.
  intros Hlow. unfold peek_next_message_from_queue, starvation_polls.
  erewrite bind_returns by reflexivity.
  destruct (message_queue_ s) as [|m rest] eqn:Hq; cbn [head].
  2: { erewrite bind_returns by reflexivity. eauto. }
  destruct (storage_loading_future_ s) eqn:Hf.
  - erewrite bind_returns; [|erewrite bind_returns by (unfold is_storage_completely_loaded; by rewrite Hf); reflexivity].
    cbn. eauto.
  - destruct (rclcpp_ok s) eqn:Hok.
    + destruct (starved_poll_total (add_log WARN
         ("Message queue starved. Messages will be delayed. Consider "
          +:+ "increasing the --read-ahead-queue-size option.") s) 0)
        as (r & s1 & Hpoll); [done|done|].
      erewrite bind_returns.
      2: { erewrite bind_returns by (unfold is_storage_completely_loaded; by rewrite Hf).
           erewrite bind_returns by reflexivity. rewrite Hok. cbn [negb andb].
           erewrite bind_returns by reflexivity. exact Hpoll. }
      destruct r; cbn; eauto.
    + erewrite bind_returns.
      2: { erewrite bind_returns by (unfold is_storage_completely_loaded; by rewrite Hf).
           erewrite bind_returns by reflexivity. rewrite Hok. reflexivity. }
      cbn. eauto.
  - erewrite bind_returns; [|erewrite bind_returns by (unfold is_storage_completely_loaded; by rewrite Hf); reflexivity].
    cbn. eauto.
Qed.

Lemma play_next_loop_published (fuel : nat) mp s b s' :
  play_next_loop fuel mp true s = Ret b s' → b = true ∧ s' = s.
Proof.
  destruct fuel as [|fuel]; [done|]. cbn [play_next_loop].
  destruct mp; by intros [= <- <-].
Qed.

Lemma publish_message_inv m s pub sp :
  publish_message m s = Ret pub sp →
  publishers_ sp = publishers_ s ∧ clock_ sp = clock_ s ∧
  message_queue_ sp = message_queue_ s ∧ reader_ sp = reader_ s ∧
  published sp = published s ++ publication (publishers_ s) m ∧
  (if pub then is_Some (publishers_ s !! topic_name m)
   else no_publisher (publishers_ s) m).
Proof.
  unfold publish_message, publication, no_publisher.
  destruct (publishers_ s !! topic_name m) as [publisher|];
    intros [= <- <-]; cbn; rewrite ?app_nil_r; by split_and!.
Qed.

Lemma play_next_loop_spec (fuel : nat) : ∀ mp s b s',
  mp = head (message_queue_ s) →
  play_next_loop fuel mp false s = Ret b s' →
  ∃ popped, stepped s s' b popped.
Proof.
  induction fuel as [|fuel IH]; intros mp s b s' Hmp Hrun; [done|].
  cbn [play_next_loop] in Hrun. destruct mp as [m|].
  2: { injection Hrun as <- <-. exists [].
       destruct (message_queue_ s) eqn:Hq; [|done].
       unfold stepped. rewrite !app_nil_r. by split_and!. }
  destruct (message_queue_ s) as [|m0 rest] eqn:Hq; [done|].
  injection Hmp as ->.
  apply bind_inv in Hrun as (pub & sp & Hpublish & Hrun).
  apply bind_inv in Hrun as ([] & sj & [= <-] & Hrun).
  apply bind_inv in Hrun as (popped & sq & Hpop & Hrun).
  apply bind_inv in Hrun as (mp' & s1 & Hpeek & Hrun).
  apply publish_message_inv in Hpublish as (Hp & Hc & Hqp & Hr & Hpd & Hpub).
  unfold queue_pop in Hpop. cbn in Hpop. rewrite Hqp, Hq in Hpop.
  injection Hpop as <- <-.
  apply peek_spec in Hpeek as [Hsame ->].
  destruct Hsame as (Hc1 & Hp1 & Hpd1 & _ & _ & _ & _ & _ & Hst1).
  cbn in Hc1, Hp1, Hpd1.
  assert (stream s = m0 :: stream s1) as Hst.
  { rewrite Hst1. unfold stream. cbn. by rewrite Hq, Hr. }
  destruct pub.
  - apply play_next_loop_published in Hrun as [-> ->].
    exists [m0]. unfold stepped. cbn. rewrite app_nil_r.
    split_and!; [done|congruence|congruence| | |].
    + by rewrite Hc1, Hc.
    + by rewrite Hc1, Hc.
    + exists [], m0. by split_and!.
  - apply IH in Hrun as (popped & Hst' & Hp' & Hpd' & Hj' & Hpa' & Hb);
      [|done].
    assert (publishers_ s1 = publishers_ s) as Hps by congruence.
    rewrite Hps in *.
    exists (m0 :: popped). unfold stepped. split_and!.
    + by rewrite <- app_comm_cons, <- Hst'.
    + done.
    + cbn. rewrite Hpd', Hpd1, Hpd. by rewrite <- app_assoc.
    + rewrite Hj', Hc1, Hc. cbn. by rewrite <- app_assoc.
    + by rewrite Hpa', Hc1, Hc.
    + destruct b.
      * destruct Hb as (skipped & m & -> & Hsk & Hm).
        exists (m0 :: skipped), m. split_and!; [done| |done].
        by constructor.
      * destruct Hb as [Hall Hq']. split; [|done]. by constructor.
Qed.

Lemma play_next_loop_total (fuel : nat) : ∀ mp s,
  mp = head (message_queue_ s) →
  (length (stream s) < fuel)%nat →
  (1 ≤ queue_lower_boundary s)%nat →
  ∃ b s', play_next_loop fuel mp false s = Ret b s'.
Proof.
  induction fuel as [|fuel IH]; intros mp s Hmp Hfuel Hlow; [lia|].
  cbn [play_next_loop]. destruct mp as [m|]; [|by eexists _, _].
  destruct (message_queue_ s) as [|m0 rest] eqn:Hq; [done|].
  injection Hmp as ->.
  assert (∀ pub sp,
    message_queue_ sp = m0 :: rest → reader_ sp = reader_ s →
    play_options_ sp = play_options_ s →
    ∃ b s',
      (clock_jump (time_stamp m0);; queue_pop;;
       message_ptr ← peek_next_message_from_queue;
       play_next_loop fuel message_ptr pub) sp = Ret b s') as Hrest.
  { intros pub sp Hqp Hr Hopt.
    erewrite bind_returns by reflexivity.
    erewrite bind_returns by (unfold queue_pop; cbn; by rewrite Hqp).
    set (sq := set_message_queue_ rest _).
    destruct (peek_total sq) as (mp' & s1 & Hpeek).
    { unfold queue_lower_boundary in *. subst sq. cbn. by rewrite Hopt. }
    erewrite bind_returns by exact Hpeek.
    apply peek_spec in Hpeek as [Hsame ->].
    destruct Hsame as (_ & _ & _ & _ & Hopt1 & _ & _ & _ & Hst1).
    assert (stream s = m0 :: stream s1) as Hst.
    { rewrite Hst1. unfold stream. subst sq. cbn. by rewrite Hq, Hr. }
    rewrite Hst in Hfuel. simpl in Hfuel.
    destruct pub.
    - destruct fuel as [|fuel]; [lia|]. cbn [play_next_loop].
      destruct (head (message_queue_ s1)); by eexists _, _.
    - apply IH; [done|lia|].
      unfold queue_lower_boundary in *. rewrite Hopt1. subst sq. cbn.
      by rewrite Hopt. }
  destruct (publishers_ s !! topic_name m0) as [publisher|] eqn:Hpub.
  - erewrite bind_returns
      by (unfold publish_message; rewrite Hpub; reflexivity).
    by apply Hrest.
  - erewrite bind_returns
      by (unfold publish_message; rewrite Hpub; reflexivity).
    by apply Hrest.
Qed.

Lemma no_publication pubs (l : list Msg) :
  Forall (no_publisher pubs) l → flat_map (publication pubs) l = [].
Proof.
  induction 1 as [|m l Hm _ IH]; [done|].
  cbn. unfold publication at 1. by rewrite Hm, IH.
Qed.

(** [play_next] on a paused player, when it returns. *)
Lemma play_next_paused_spec s b s' :
  Clock.is_paused (clock_ s) = true →
  play_next s = Ret b s' →
  ∃ popped, stepped s s' b popped.
Proof.
  intros Hpaused Hrun. unfold play_next in Hrun. rewrite Hpaused in Hrun.
  cbn [negb] in Hrun.
  apply bind_inv in Hrun as ([] & s1 & [= <-] & Hrun).
  apply bind_inv in Hrun as ([] & s2 & [= <-] & Hrun).
  apply bind_inv in Hrun as ([] & s3 & Hwait & Hrun).
  unfold wait_until_ready_to_play in Hwait. cbn in Hwait.
  destruct (is_ready_to_play_from_queue_ s); [|done].
  injection Hwait as <-.
  apply bind_inv in Hrun as (mp & s4 & Hpeek & Hrun).
  apply peek_spec in Hpeek as [Hsame ->].
  apply play_next_loop_spec in Hrun as (popped & Hst & Hp & Hpd & Hj & Hpa & Hb);
    [|done].
  destruct Hsame as (Hc1 & Hp1 & Hpd1 & _ & _ & _ & _ & _ & Hst1).
  cbn in Hc1, Hp1, Hpd1. exists popped. unfold stepped.
  rewrite Hp1, Hpd1, Hc1, Hst1 in *. by split_and!.
Qed.

Lemma play_next_paused_total s :
  Clock.is_paused (clock_ s) = true →
  is_ready_to_play_from_queue_ s = true →
  (1 ≤ queue_lower_boundary s)%nat →
  ∃ b s', play_next s = Ret b s'.
Proof.
  intros Hpaused Hready Hlow. unfold play_next. rewrite Hpaused. cbn [negb].
  erewrite bind_returns by reflexivity.
  erewrite bind_returns by reflexivity.
  erewrite bind_returns
    by (unfold wait_until_ready_to_play; cbn; by rewrite Hready).
  set (s1 := set_skip_message_in_main_play_loop_ true _).
  destruct (peek_total s1) as (mp & s2 & Hpeek); [done|].
  erewrite bind_returns by exact Hpeek.
  apply peek_spec in Hpeek as [Hsame ->].
  destruct Hsame as (_ & _ & _ & _ & Hopt & _ & _ & _ & Hst).
  apply play_next_loop_total; [done| |].
  - rewrite Hst. unfold play_next_fuel, stream. subst s1. cbn.
    rewrite length_app. lia.
  - unfold queue_lower_boundary in *. by rewrite Hopt.
Qed.

(** C3: [play_next] on a clock that is not paused returns false with the
    warning "Called play next, but not in paused state." added at the end
    of the logger, and with what was published, the queue, the reader and
    the clock as they were.  On a paused clock, when
    it returns, it has taken from the stream the messages [skipped], whose
    topics have no publisher and which are not published, followed, when it
    returns true, by exactly one message that has a publisher and is the
    only one handed to the transport; it returns false when the queue ran
    empty with nothing published.  And it does return when the player is
    ready and the producer task can fill an empty queue. *)
Theorem play_next_publishes_at_most_one (s : Player.t) :
  (Clock.is_paused (clock_ s) = false →
   ∃ s',
     play_next s = Ret false s' ∧
     s' = add_log WARN "Called play next, but not in paused state." s ∧
     logger s' =
       logger s ++ [(WARN, "Called play next, but not in paused state.")] ∧
     published s' = published s ∧
     message_queue_ s' = message_queue_ s ∧
     reader_ s' = reader_ s ∧
     clock_ s' = clock_ s) ∧
  (Clock.is_paused (clock_ s) = true →
   ∀ b s', play_next s = Ret b s' →
     ∃ skipped,
       Forall (no_publisher (publishers_ s)) skipped ∧
       if b then
         ∃ m publisher,
           publishers_ s !! topic_name m = Some publisher ∧
           stream s = skipped ++ m :: stream s' ∧
           published s' =
             published s ++ [(publisher_topic publisher, serialized_data m)]
       else
         stream s = skipped ++ stream s' ∧ message_queue_ s' = [] ∧
         published s' = published s) ∧
  (Clock.is_paused (clock_ s) = true →
   is_ready_to_play_from_queue_ s = true →
   (1 ≤ queue_lower_boundary s)%nat →
   ∃ b s', play_next s = Ret b s').
Proof.
  split_and!.
  - intros Hrunning. eexists. split; [|by split_and!].
    unfold play_next. by rewrite Hrunning.
  - intros Hpaused b s' Hrun.
    destruct (play_next_paused_spec s b s' Hpaused Hrun)
      as (popped & Hst & Hp & Hpd & Hj & Hpa & Hb).
    destruct b.
    + destruct Hb as (skipped & m & -> & Hsk & [publisher Hm]).
      exists skipped. split; [done|]. exists m, publisher.
      split_and!; [done|by rewrite <- app_assoc in Hst|].
      rewrite Hpd, flat_map_app, (no_publication _ _ Hsk). cbn.
      unfold publication. by rewrite Hm.
    + destruct Hb as [Hsk Hq]. exists popped. split_and!; try done.
      by rewrite Hpd, (no_publication _ _ Hsk), app_nil_r.
  - apply play_next_paused_total.
Qed.

Lemma play_next_publishes_at_most_one_witness :
  (∃ s',
     play_next Samples.running_player = Ret false s' ∧
     s' = add_log WARN "Called play next, but not in paused state."
            Samples.running_player ∧
     logger s' =
       logger Samples.running_player ++
       [(WARN, "Called play next, but not in paused state.")] ∧
     published s' = published Samples.running_player ∧
     message_queue_ s' = message_queue_ Samples.running_player ∧
     reader_ s' = reader_ Samples.running_player ∧
     clock_ s' = clock_ Samples.running_player) ∧
  (∃ b s', play_next Scenario.stepping_player = Ret b s') ∧
  (∀ b s', play_next Scenario.unheard_player = Ret b s' →
     ∃ skipped,
       Forall (no_publisher (publishers_ Scenario.unheard_player)) skipped ∧
       if b then
         ∃ m publisher,
           publishers_ Scenario.unheard_player !! topic_name m
             = Some publisher ∧
           stream Scenario.unheard_player = skipped ++ m :: stream s' ∧
           published s' =
             published Scenario.unheard_player ++
             [(publisher_topic publisher, serialized_data m)]
       else
         stream Scenario.unheard_player = skipped ++ stream s' ∧
         message_queue_ s' = [] ∧
         published s' = published Scenario.unheard_player).
Proof.
  split_and!.
  - pose proof (play_next_publishes_at_most_one Samples.running_player)
      as (H & _ & _).
    apply H. reflexivity.
  - apply (play_next_publishes_at_most_one Scenario.stepping_player);
      [reflexivity|reflexivity|vm_compute; lia].
  - apply (play_next_publishes_at_most_one Scenario.unheard_player).
    reflexivity.
Defined.

(** The clock is jumped to the time stamp of a message that is not
    published. *)
Lemma play_next_jumps_without_publisher :
  ∃ s',
    play_next Scenario.unheard_player = Ret false s' ∧
    publishers_ Scenario.unheard_player !! topic_name Scenario.x7 = None ∧
    published s' = [] ∧
    Clock.jumps (clock_ Scenario.unheard_player) = [] ∧
    Clock.base_bag_time (clock_ Scenario.unheard_player) = 10 ∧
    Clock.jumps (clock_ s') = [time_stamp Scenario.x7] ∧
    Clock.base_bag_time (clock_ s') = time_stamp Scenario.x7.
Proof. eexists. split_and!; [vm_compute; reflexivity|reflexivity..]. Qed.

(** C4, as the code has it: on a paused clock, [play_next] jumps the clock
    to the time stamp of every message it takes from the queue, in order,
    whether the message was published or its topic has no publisher. *)
Theorem play_next_jumps_to_every_dequeued_message (s : Player.t) b s' :
  Clock.is_paused (clock_ s) = true →
  play_next s = Ret b s' →
  ∃ popped,
    stream s = popped ++ stream s' ∧
    Clock.jumps (clock_ s') =
      Clock.jumps (clock_ s) ++ (time_stamp <$> popped) ∧
    published s' =
      published s ++ flat_map (publication (publishers_ s)) popped.
Proof.
  intros Hpaused Hrun.
  destruct (play_next_paused_spec s b s' Hpaused Hrun)
    as (popped & Hst & Hp & Hpd & Hj & Hpa & Hb).
  by exists popped.
Qed.

Lemma play_next_jumps_to_every_dequeued_message_witness :
  ∃ s',
    play_next Scenario.unheard_player = Ret false s' ∧
    ∃ popped,
      stream Scenario.unheard_player = popped ++ stream s' ∧
      Clock.jumps (clock_ s') =
        Clock.jumps (clock_ Scenario.unheard_player) ++
        (time_stamp <$> popped) ∧
      published s' =
        published Scenario.unheard_player ++
        flat_map (publication (publishers_ Scenario.unheard_player)) popped.
Proof.
  eexists. split; [vm_compute; reflexivity|].
  apply (play_next_jumps_to_every_dequeued_message
           Scenario.unheard_player false);
    [reflexivity|vm_compute; reflexivity].
Defined.

Lemma set_message_queue_id s :
  set_message_queue_ (message_queue_ s) s = s.
Proof. by destruct s. Qed.

Lemma purge_queue_spec (fuel : nat) : ∀ s,
  (length (message_queue_ s) < fuel)%nat →
  purge_queue fuel s = Ret () (set_message_queue_ [] s).
Proof.
  induction fuel as [|fuel IH]; intros s Hfuel; [lia|].
  cbn [purge_queue]. unfold mbind, M_bind, queue_pop.
  destruct (message_queue_ s) as [|m rest] eqn:Hq.
  - by rewrite <- Hq, set_message_queue_id.
  - rewrite IH by (simpl in *; lia). done.
Qed.

Lemma clamp_to_start_max s time_point :
  clamp_to_start s time_point = Z.max time_point (starting_time_ s).
Proof. unfold clamp_to_start. case_bool_decide; lia. Qed.

(** The state in which [seek] returns. *)
Lemma seek_spec (time_point : Z) s :
  is_ready_to_play_from_queue_ s = true →
  ∃ s', seek time_point s = Ret () s' ∧
    message_queue_ s' = [] ∧
    reader_ s' = Reader.seek (clamp_to_start s time_point) (reader_ s) ∧
    clock_ s' = Clock.jump (clamp_to_start s time_point) (clock_ s) ∧
    storage_loading_future_ s' =
      match storage_loading_future_ s with
      | TaskRunning => TaskRunning
      | _ => if rclcpp_ok s then TaskRunning else NoTask
      end ∧
    skip_message_in_main_play_loop_ s' = true ∧
    cancel_wait_for_next_message_ s' = true ∧
    publishers_ s' = publishers_ s ∧
    published s' = published s ∧
    logger s' = logger s.
Proof.
  intros Hready. unfold seek, clamp_to_start.
  erewrite bind_returns by reflexivity.
  erewrite bind_returns
    by (unfold wait_until_ready_to_play; cbn; by rewrite Hready).
  erewrite bind_returns by reflexivity.
  erewrite bind_returns by reflexivity.
  erewrite bind_returns by (apply purge_queue_spec; cbn; lia).
  erewrite bind_returns by reflexivity.
  erewrite bind_returns by reflexivity.
  destruct (storage_loading_future_ s) eqn:Hf.
  - erewrite bind_returns
      by (unfold is_storage_completely_loaded; cbn; by rewrite Hf).
    erewrite bind_returns by reflexivity. cbn.
    destruct (rclcpp_ok s); cbn; eexists; split_and!; try reflexivity; done.
  - erewrite bind_returns
      by (unfold is_storage_completely_loaded; cbn; by rewrite Hf).
    erewrite bind_returns by reflexivity. cbn.
    eexists; split_and!; try reflexivity; done.
  - erewrite bind_returns
      by (unfold is_storage_completely_loaded; cbn; by rewrite Hf).
    erewrite bind_returns by reflexivity. cbn.
    destruct (rclcpp_ok s); cbn; eexists; split_and!; try reflexivity; done.
Qed.




(** Scenario "Seek": after [seek(25)] the next message is the one at 30. *)
Example seek_scenario :
  ∃ s1 s2,
    seek 25 (Scenario.finished_player true) = Ret () s1 ∧
    play_next s1 = Ret true s2 ∧
    Clock.jumps (clock_ s2) = [25; 30] ∧
    storage_loading_future_ s1 = TaskRunning.
Proof.
  eexists _, _. split_and!.
  1: vm_compute; reflexivity.
  1: vm_compute; reflexivity.
  all: reflexivity.
Qed.

(** A seek before the start of the bag is clamped to the start; one past
    its end is not clamped. *)
Example seek_clamp :
  clamp_to_start (Scenario.finished_player true) 3 = 10 ∧
  clamp_to_start (Scenario.finished_player true) 1000 = 1000.
Proof. done. Qed.

(** *** [play] *)

Section PlayFacts.

Variable reader_seek : Z → M Player.t unit.
Variable wait_for_filled_queue : M Player.t unit.
Variable play_messages_from_queue : M Player.t unit.

Local Abbreviation play_pass :=
  (Player.play_pass reader_seek wait_for_filled_queue
                    play_messages_from_queue).
Local Abbreviation play_loop :=
  (Player.play_loop reader_seek wait_for_filled_queue
                    play_messages_from_queue).
Local Abbreviation play :=
  (Player.play reader_seek wait_for_filled_queue play_messages_from_queue).

Lemma checked_delay_returns s :
  ∃ delay s0, checked_delay s = Ret delay s0 ∧
              same_session s s0 ∧ 0 ≤ delay.
Proof.
  unfold checked_delay. erewrite bind_returns by reflexivity.
  case_bool_decide.
  - eexists _, s. split_and!; [done|apply same_session_refl|done].
  - eexists 0, _. split_and!; [done|apply add_log_same|done].
Qed.

(** An exception that [reader_->seek] throws leaves the pass, and so the
    loop. *)
Lemma play_pass_seek_throws delay s e s1 :
  (delay ≤ 0 ∧ reader_seek (starting_time_ s) s = Raise e s1 ∨
   0 < delay ∧
   reader_seek (starting_time_ s)
     (add_log INFO ("Sleep " +:+ pretty delay +:+ " ns") s) = Raise e s1) →
  play_pass delay s = Raise e s1.
Proof.
  unfold Player.play_pass.
  intros [[Hd Hseek]|[Hd Hseek]].
  - rewrite bool_decide_false by lia.
    erewrite bind_returns by reflexivity.
    erewrite bind_returns by reflexivity.
    unfold mbind, M_bind. by rewrite Hseek.
  - rewrite bool_decide_true by lia.
    erewrite bind_returns by reflexivity.
    erewrite bind_returns by reflexivity.
    unfold mbind, M_bind. cbn. by rewrite Hseek.
Qed.

Lemma play_loop_pass_throws fuel delay s e s1 :
  play_pass delay s = Raise e s1 → play_loop (S fuel) delay s = Raise e s1.
Proof.
  intros Hpass. cbn [Player.play_loop].
  unfold mbind, M_bind. by rewrite Hpass.
Qed.

(** C6: when the loop of [play] ends with a runtime error [what], whatever
    the pass and the statement it comes from, [play] returns normally, in
    the state the error left with the line "Failed to play: what" logged as
    an error, the readiness flag cleared and the condition variable
    notified. *)
Theorem play_catches_storage_errors (fuel : nat) (s : Player.t)
    (delay : Z) (s0 s1 : Player.t) (what : string) :
  checked_delay s = Ret delay s0 →
  play_loop fuel delay s0 = Raise (runtime_error what) s1 →
  ∃ s',
    play fuel s = Ret () s' ∧
    s' = set_ready_and_notify false
           (Player.add_log ERROR ("Failed to play: " +:+ what) s1) ∧
    Player.logger s' =
      Player.logger s1 ++ [(ERROR, "Failed to play: " +:+ what)] ∧
    is_ready_to_play_from_queue_ s' = false ∧
    ready_to_play_from_queue_cv_ s' = S (ready_to_play_from_queue_cv_ s1).
Proof.
  intros Hdelay Hloop. eexists. split; [|by split_and!].
  unfold Player.play. erewrite bind_returns by exact Hdelay.
  erewrite bind_returns; [reflexivity|].
  unfold try_catch_runtime_error. by rewrite Hloop.
Qed.

End PlayFacts.

Lemma play_catches_storage_errors_witness :
  let s := Scenario.stepping_player in
  ∃ s',
    play Scenario.failing_seek (mret ()) (mret ()) 1 s = Ret () s' ∧
    s' = set_ready_and_notify false
           (Player.add_log ERROR
              ("Failed to play: " +:+ "database disk image is malformed") s) ∧
    Player.logger s' =
      Player.logger s ++
      [(ERROR, "Failed to play: " +:+ "database disk image is malformed")] ∧
    is_ready_to_play_from_queue_ s' = false ∧
    ready_to_play_from_queue_cv_ s' = S (ready_to_play_from_queue_cv_ s).
Proof.
  apply (play_catches_storage_errors Scenario.failing_seek (mret ()) (mret ())
           1 Scenario.stepping_player 0 Scenario.stepping_player);
    reflexivity.
Defined.

(** An exception that is not a runtime error is not caught. *)
Example play_lets_other_exceptions_through :
  play (λ _, throw (invalid_argument "bad")) (mret ()) (mret ()) 1
       Scenario.stepping_player =
  Raise (invalid_argument "bad") Scenario.stepping_player.
Proof. reflexivity. Qed.

Example play_next_scenario :
  ∃ s1 s2 s3 s4,
    play_next Scenario.stepping_player = Ret true s1 ∧
    play_next s1 = Ret true s2 ∧
    play_next s2 = Ret true s3 ∧
    play_next s3 = Ret false s4 ∧
    published s4 = [("/a"%string, []); ("/a"%string, []); ("/a"%string, [])] ∧
    Clock.jumps (clock_ s4) = [10; 20; 30].
Proof.
  eexists _, _, _, _. split_and!.
  1: vm_compute; reflexivity.
  1: vm_compute; reflexivity.
  1: vm_compute; reflexivity.
  1: vm_compute; reflexivity.
  all: reflexivity.
Qed.

End PlayerFacts.

(** ** QoS selection for publishers *)



(** ** Recording engine *)

Section RecorderFacts.

Import Recorder.

Variable lib : Qos.Library.
Variable env : Middleware.

Lemma subscribe_topic_keeps topic s :
  Writer.opened (writer_ (subscribe_topic lib env topic s)) =
    Writer.opened (writer_ s) ∧
  record_options_ (subscribe_topic lib env topic s) = record_options_ s.
Proof.
  unfold subscribe_topic, subscription_qos_for_topic.
  destruct (topic_qos_profile_overrides_ _ !! name topic); cbn;
    destruct (create_generic_subscription env _ _ _); cbn; try done;
    by destruct (subscriptions_ s !! name topic).
Qed.

Lemma subscribe_topics_keeps topics : ∀ s,
  Writer.opened (writer_ (subscribe_topics lib env topics s)) =
    Writer.opened (writer_ s) ∧
  record_options_ (subscribe_topics lib env topics s) = record_options_ s.
Proof.
  unfold subscribe_topics.
  induction topics as [|topic topics IH]; intros s; [done|].
  cbn [foldl]. destruct (IH (subscribe_topic lib env
    (mkTopic topic.1 topic.2 (serialization_format_ s)
       (serialized_offered_qos_profiles_for_topic lib env topic.1)) s))
    as [-> ->].
  apply subscribe_topic_keeps.
Qed.

(** What [record] does once the format is checked and the writer opens. *)
Lemma record_returns (s : Recorder.t) :
  rmw_serialization_format (record_options_ s) ≠ "" →
  writer_open_error env = None →
  ∃ s', record lib env s = Ret () s' ∧
        Writer.opened (writer_ s') =
          Some (rmw_get_serialization_format env,
                rmw_serialization_format (record_options_ s)).
Proof.
  intros Hformat Hopen. unfold record.
  erewrite bind_returns by reflexivity.
  erewrite bind_returns by reflexivity.
  cbn [record_options_ set_topic_qos_profile_overrides_].
  rewrite bool_decide_false by done. rewrite Hopen.
  unfold mbind, M_bind, modify, gets, mret, M_ret.
  cbn [storage_options_ record_options_ set_writer_
       set_topic_qos_profile_overrides_].
  destruct (snapshot_mode (storage_options_ s));
    rewrite (proj2 (subscribe_topics_keeps _ _));
    cbn [storage_options_ record_options_ set_writer_ add_log
         set_topic_qos_profile_overrides_ set_serialization_format_
         set_srv_snapshot_];
    destruct (is_discovery_disabled (record_options_ s)); cbn [negb];
    (eexists; split; [reflexivity|]);
    cbn [writer_ set_discovery_future_];
    by rewrite (proj1 (subscribe_topics_keeps _ _)).
Qed.

(** What [record] throws: the error of the format check, or the storage
    error of [writer_->open]; in both cases with the writer, the
    subscriptions and the logger as they were. *)
Lemma record_throws (s : Recorder.t) :
  let format := rmw_serialization_format (record_options_ s) in
  ∀ e, (format = "" ∧ e = runtime_error "No serialization format specified!" ∨
        format ≠ "" ∧ writer_open_error env = Some e) →
  ∃ s', record lib env s = Raise e s' ∧
        writer_ s' = writer_ s ∧
        subscriptions_ s' = subscriptions_ s ∧
        Recorder.logger s' = Recorder.logger s.
Proof.
  intros format e Hcase. unfold record.
  erewrite bind_returns by reflexivity.
  erewrite bind_returns by reflexivity.
  cbn [record_options_ set_topic_qos_profile_overrides_]. fold format.
  destruct Hcase as [[Hformat ->]|[Hformat Hopen]].
  - rewrite bool_decide_true by done. by eexists.
  - rewrite bool_decide_false by done. rewrite Hopen. by eexists.
Qed.

(** C7, as the code has it: with an empty serialization format [record]
    throws the runtime error "No serialization format specified!" before
    the writer is opened and before any topic is subscribed: the writer,
    the subscriptions and the logger are as they were.  It does not throw
    only then: with a format, a storage error of [writer_->open] leaves
    [record] as well, again with nothing subscribed.  And when [record]
    returns, the format was not empty and the writer is opened on it. *)
Theorem record_fails_before_open_without_format (s : Recorder.t) :
  let format := rmw_serialization_format (record_options_ s) in
  (format = "" →
   ∃ s', record lib env s =
           Raise (runtime_error "No serialization format specified!") s' ∧
         writer_ s' = writer_ s ∧
         subscriptions_ s' = subscriptions_ s ∧
         Recorder.logger s' = Recorder.logger s) ∧
  (format ≠ "" → ∀ e, writer_open_error env = Some e →
   ∃ s', record lib env s = Raise e s' ∧
         writer_ s' = writer_ s ∧
         subscriptions_ s' = subscriptions_ s ∧
         Recorder.logger s' = Recorder.logger s) ∧
  (∀ s', record lib env s = Ret () s' →
     format ≠ "" ∧ writer_open_error env = None ∧
     Writer.opened (writer_ s') =
       Some (rmw_get_serialization_format env, format)).
Proof.
  intros format. split_and!.
  - intros Hformat. apply record_throws. by left.
  - intros Hformat e Hopen. apply record_throws. by right.
  - intros s' Hrun.
    destruct (decide (format = "")) as [Hformat|Hformat].
    { destruct (record_throws s _ (or_introl (conj Hformat eq_refl)))
        as (s1 & Hraise & _). congruence. }
    destruct (writer_open_error env) as [e|] eqn:Hopen.
    { destruct (record_throws s e (or_intror (conj Hformat Hopen)))
        as (s1 & Hraise & _). congruence. }
    destruct (record_returns s Hformat Hopen) as (s1 & Hret & Hopened).
    assert (s1 = s') as <- by congruence.
    split_and!; [done|done|exact Hopened].
Qed.

(** The guard of [warn_if_new_qos_for_subscribed_topic]: nothing is done
    for a topic that was warned about. *)
Lemma warn_if_new_qos_skips_warned_topic (topic_name : string) s :
  topic_name ∈ topics_warned_about_incompatibility_ s →
  warn_if_new_qos_for_subscribed_topic env topic_name s = s.
Proof.
  intros Hwarned. unfold warn_if_new_qos_for_subscribed_topic.
  destruct (subscriptions_ s !! topic_name); [|done].
  by rewrite bool_decide_true.
Qed.

Lemma warn_about_publisher_records (topic_name : string) used s new_profile :
  let s' := warn_about_publisher topic_name used s new_profile in
  s' = s ∨ topic_name ∈ topics_warned_about_incompatibility_ s'.
Proof.
  unfold warn_about_publisher.
  destruct (Qos.is_best_effort _ && negb _); [right; cbn; set_solver|].
  destruct (Qos.is_volatile _ && negb _); [right; cbn; set_solver|by left].
Qed.

Lemma warn_about_publisher_keeps (topic_name : string) used s new_profile :
  topic_name ∈ topics_warned_about_incompatibility_ s →
  topic_name ∈ topics_warned_about_incompatibility_
                 (warn_about_publisher topic_name used s new_profile).
Proof.
  unfold warn_about_publisher. intros Hin.
  destruct (Qos.is_best_effort _ && negb _); [cbn; set_solver|].
  destruct (Qos.is_volatile _ && negb _); [cbn; set_solver|done].
Qed.

Lemma warn_scan_records (topic_name : string) used publishers : ∀ s,
  let s' := foldl (warn_about_publisher topic_name used) s publishers in
  s' = s ∨ topic_name ∈ topics_warned_about_incompatibility_ s'.
Proof.
  induction publishers as [|p publishers IH]; intros s; [by left|].
  cbn [foldl].
  destruct (warn_about_publisher_records topic_name used s p) as [->|Hin];
    [apply IH|].
  right. clear IH. revert Hin.
  generalize (warn_about_publisher topic_name used s p).
  induction publishers as [|q publishers IH]; intros s1 Hin; [done|].
  cbn [foldl]. by apply IH, warn_about_publisher_keeps.
Qed.

(** Across calls the warning is not repeated: a call that changed anything
    has recorded the topic, and every later call returns at the guard. *)
Lemma qos_warning_not_repeated_by_later_calls (topic_name : string) s :
  let s1 := warn_if_new_qos_for_subscribed_topic env topic_name s in
  s1 = s ∨
  ∀ later : Middleware,
    warn_if_new_qos_for_subscribed_topic later topic_name s1 = s1.
Proof.
  intros s1.
  assert (s1 = s ∨ topic_name ∈ topics_warned_about_incompatibility_ s1)
    as [?|Hin]; [|by left|].
  { subst s1. unfold warn_if_new_qos_for_subscribed_topic.
    destruct (subscriptions_ s !! topic_name); [|by left].
    case_bool_decide; [by left|]. apply warn_scan_records. }
  right. intros later. clear -Hin.
  unfold warn_if_new_qos_for_subscribed_topic at 1.
  destruct (subscriptions_ s1 !! topic_name); [|done].
  by rewrite bool_decide_true.
Qed.

End RecorderFacts.

Lemma record_fails_before_open_without_format_witness :
  (∃ s', Recorder.record Scenario.toy_library
           Scenario.two_best_effort_publishers (Scenario.fresh_recorder "") =
           Raise (runtime_error "No serialization format specified!") s' ∧
         Recorder.writer_ s' = Recorder.writer_ (Scenario.fresh_recorder "") ∧
         Recorder.subscriptions_ s' =
           Recorder.subscriptions_ (Scenario.fresh_recorder "") ∧
         Recorder.logger s' = Recorder.logger (Scenario.fresh_recorder "")) ∧
  (∃ s', Recorder.record Scenario.toy_library Samples.unwritable_storage
           (Scenario.fresh_recorder "cdr") =
           Raise (runtime_error "Could not open the storage") s' ∧
         Recorder.writer_ s' = Recorder.writer_ (Scenario.fresh_recorder "cdr") ∧
         Recorder.subscriptions_ s' =
           Recorder.subscriptions_ (Scenario.fresh_recorder "cdr") ∧
         Recorder.logger s' =
           Recorder.logger (Scenario.fresh_recorder "cdr")) ∧
  (∃ s', Recorder.record Scenario.toy_library
           Scenario.two_best_effort_publishers (Scenario.fresh_recorder "cdr") =
           Ret () s' ∧
         Writer.opened (Recorder.writer_ s') = Some ("cdr", "cdr")%string).
Proof.
  split_and!.
  - pose proof (record_fails_before_open_without_format Scenario.toy_library
                  Scenario.two_best_effort_publishers
                  (Scenario.fresh_recorder "")) as H.
    cbv zeta in H. destruct H as (H & _ & _). apply H. reflexivity.
  - pose proof (record_fails_before_open_without_format Scenario.toy_library
                  Samples.unwritable_storage
                  (Scenario.fresh_recorder "cdr")) as H.
    cbv zeta in H. destruct H as (_ & H & _).
    apply H; [discriminate|reflexivity].
  - pose proof (record_fails_before_open_without_format Scenario.toy_library
                  Scenario.two_best_effort_publishers
                  (Scenario.fresh_recorder "cdr")) as H.
    cbv zeta in H. destruct H as (_ & _ & H).
    eexists. split; [vm_compute; reflexivity|].
    apply H. vm_compute; reflexivity.
Defined.

(** With the format "cdr" and a storage that cannot be opened, [record]
    throws the storage error, with nothing subscribed. *)
Lemma record_throws_with_format_when_open_fails :
  Recorder.rmw_serialization_format
    (Recorder.record_options_ (Scenario.fresh_recorder "cdr")) ≠ ""%string ∧
  ∃ s',
    Recorder.record Scenario.toy_library Samples.unwritable_storage
      (Scenario.fresh_recorder "cdr") =
      Raise (runtime_error "Could not open the storage") s' ∧
    Writer.opened (Recorder.writer_ s') = None ∧
    Recorder.subscriptions_ s' = ∅.
Proof.
  split; [discriminate|].
  eexists. split_and!; [vm_compute; reflexivity|reflexivity..].
Qed.

(** C8: one call of [warn_if_new_qos_for_subscribed_topic] on a topic
    subscribed with a reliable request and offered by two best-effort
    publishers sends the warning twice: the loop over the publishers goes
    on after it has recorded the warning. *)
Theorem warn_if_new_qos_repeats_within_one_scan :
  let s' := Recorder.warn_if_new_qos_for_subscribed_topic
              Scenario.two_best_effort_publishers "/t"
              Scenario.subscribed_recorder in
  Recorder.qos_warnings "/t" Scenario.subscribed_recorder = [] ∧
  Recorder.qos_warnings "/t" s' =
    [(WARN, Recorder.reliability_warning "/t");
     (WARN, Recorder.reliability_warning "/t")] ∧
  "/t"%string ∈ Recorder.topics_warned_about_incompatibility_ s'.
Proof.
  split_and!; [vm_compute; reflexivity..|].
  cbn. set_solver.
Qed.

(** * Further properties of the code *)

(** ** Rewrite merger: order within a bag *)

Section RewriteMore.
Import Rewrite.

Lemma merges_sublist lns out :
  merges lns out → ∀ i lane, lns !! i = Some lane → lane `sublist_of` out.
Proof.
  induction 1 as [lns Hnil|lns j m rest out Hj Hmin Hrec IH]; intros i lane Hi.
  - apply concat_nil_Forall in Hnil.
    rewrite (Forall_lookup_1 _ _ _ _ Hnil Hi). constructor.
  - destruct (decide (i = j)) as [->|Hne].
    + rewrite Hj in Hi. injection Hi as <-. apply sublist_skip, (IH j).
      apply list_lookup_insert_eq. by eapply lookup_lt_Some.
    + apply sublist_cons, (IH i). by rewrite list_lookup_insert_ne.
Qed.

Lemma merges_single out : ∀ lane, merges [lane] out → out = lane.
Proof.
  intros lane Hm. remember [lane] as lns eqn:Hl. revert lane Hl.
  induction Hm as [lns Hnil|lns j m rest out Hj Hmin Hrec IH]; intros lane ->.
  - simpl in Hnil. by rewrite app_nil_r in Hnil.
  - destruct j as [|j]; [|done]. simpl in Hj. injection Hj as ->.
    f_equal. by apply IH.
Qed.

(** X1: whatever the order of the time stamps inside the readers, [rewrite]
    on non-empty vectors returns having appended to every writer one
    sequence [out] that holds every message of every reader once and keeps
    the messages of each reader in the order of that reader. *)
Theorem rewrite_keeps_every_bag_in_order (fuel : nat)
    (input_bags : list Reader.t) (output_bags : list Writer.t) :
  input_bags ≠ [] → output_bags ≠ [] →
  (length (all_messages input_bags) < fuel)%nat →
  ∃ out bags',
    rewrite fuel input_bags output_bags =
      Ret () (bags', Writer.extend out <$> output_bags) ∧
    out ≡ₚ all_messages input_bags ∧
    ∀ i r, input_bags !! i = Some r → Reader.unread r `sublist_of` out.
Proof.
  intros Hin Hout Hfuel. unfold rewrite.
  rewrite !bool_decide_false by done. cbn [orb].
  destruct (rewrite_loop_spec fuel input_bags
              (replicate (length input_bags) None) output_bags)
    as (out & bags' & Hrun & Hmerge & Hdone).
  { by rewrite length_replicate. }
  { by rewrite lanes_initial. }
  rewrite lanes_initial in Hmerge.
  exists out, bags'. split_and!; [done|by apply merges_perm|].
  intros i r Hi. apply (merges_sublist _ _ Hmerge i).
  by rewrite list_lookup_fmap, Hi.
Qed.

(** X2: with a single reader, [rewrite] appends the messages of the
    reader to every writer in the order of the reader, sorted or not, and
    leaves the reader exhausted. *)
Theorem rewrite_single_bag_copies (fuel : nat) (bag : Reader.t)
    (output_bags : list Writer.t) :
  output_bags ≠ [] →
  (length (Reader.unread bag) < fuel)%nat →
  ∃ bags',
    rewrite fuel [bag] output_bags =
      Ret () (bags', Writer.extend (Reader.unread bag) <$> output_bags) ∧
    all_messages bags' = [].
Proof.
  intros Hout Hfuel. unfold rewrite.
  rewrite bool_decide_false by done. rewrite bool_decide_false by done.
  cbn [orb].
  destruct (rewrite_loop_spec fuel [bag] (replicate (length [bag]) None)
              output_bags) as (out & bags' & Hrun & Hmerge & Hdone).
  { done. }
  { rewrite lanes_initial. unfold all_messages in *. simpl.
    rewrite app_nil_r. done. }
  rewrite lanes_initial in Hmerge. apply merges_single in Hmerge as ->.
  by exists bags'.
Qed.
End RewriteMore.

Section RewriteMoreWitnesses.
Import Rewrite.

Lemma rewrite_keeps_every_bag_in_order_witness :
  ∃ out bags',
    rewrite 4 [Samples.unsorted_bag; Samples.other_bag] [Scenario.out_bag] =
      Ret () (bags', Writer.extend out <$> [Scenario.out_bag]) ∧
    out ≡ₚ all_messages [Samples.unsorted_bag; Samples.other_bag] ∧
    ∀ i r, [Samples.unsorted_bag; Samples.other_bag] !! i = Some r →
           Reader.unread r `sublist_of` out.
Proof.
  apply (rewrite_keeps_every_bag_in_order 4); [done|done|simpl; lia].
Defined.

Lemma rewrite_single_bag_copies_witness :
  ∃ bags',
    rewrite 3 [Samples.unsorted_bag] [Scenario.out_bag] =
      Ret () (bags', Writer.extend (Reader.unread Samples.unsorted_bag)
                       <$> [Scenario.out_bag]) ∧
    all_messages bags' = [].
Proof.
  apply (rewrite_single_bag_copies 3); [done|simpl; lia].
Defined.

End RewriteMoreWitnesses.

(** ** Playback engine: producer, play loop and a pass of [play] *)

Section PlaybackFacts.
Import Player Playback.

Lemma enqueue_loop_loading (n : nat) : ∀ s,
  storage_loading_future_ s = TaskRunning →
  rtc loading_step s (enqueue_loop n s).
Proof.
  induction n as [|n IH]; intros s Hf; cbn [enqueue_loop]; [done|].
  unfold Reader.has_next, Reader.read_next.
  destruct (Reader.unread (reader_ s)) as [|m rest] eqn:Hunread; cbn; [done|].
  eapply rtc_l; [by apply step_enqueue|]. by apply IH.
Qed.

Lemma load_storage_content_turn_loading s :
  rtc loading_step s (load_storage_content_turn s).
Proof.
  unfold load_storage_content_turn, enqueue_up_to_boundary.
  destruct (storage_loading_future_ s) eqn:Hf; try done.
  destruct (rclcpp_ok s) eqn:Hok; cbn.
  2: { apply rtc_once, step_finish; auto. }
  unfold Reader.has_next.
  destruct (Reader.unread (reader_ s)) eqn:Hunread; cbn.
  { apply rtc_once, step_finish; auto. }
  case_bool_decide; [by apply enqueue_loop_loading|done].
Qed.







(** *** The producer *)

Lemma enqueue_loop_fills (n : nat) : ∀ s,
  let s' := enqueue_loop n s in
  (length (message_queue_ s') ≤ length (message_queue_ s) + n)%nat ∧
  (length (message_queue_ s') = (length (message_queue_ s) + n)%nat ∨
   Reader.unread (reader_ s') = []).
Proof.
  induction n as [|n IH]; intros s; cbn [enqueue_loop].
  { cbn. lia. }
  unfold Reader.has_next, Reader.read_next.
  destruct (Reader.unread (reader_ s)) as [|m rest] eqn:Hunread; cbn.
  { split; [lia|by right]. }
  specialize (IH (set_message_queue_ (message_queue_ s ++ [m])
    (set_reader_ (Reader.mk (Reader.storage (reader_ s)) rest) s))).
  cbn in IH. rewrite length_app in IH. cbn in IH.
  destruct IH as [Hle [Heq|Hnil]].
  - split; [lia|left; lia].
  - split; [lia|by right].
Qed.

Lemma enqueue_up_to_boundary_room (boundary : nat) (s : t) :
  let s' := enqueue_up_to_boundary boundary s in
  (length (message_queue_ s) ≤ boundary)%nat →
  stream s' = stream s ∧
  (length (message_queue_ s') ≤ boundary)%nat ∧
  (length (message_queue_ s') = boundary ∨
   Reader.has_next (reader_ s') = false).
Proof.
  unfold enqueue_up_to_boundary. intros Hroom.
  split; [apply enqueue_loop_same|].
  destruct (enqueue_loop_fills (boundary - length (message_queue_ s)) s)
    as [Hle [Heq|Hnil]].
  - split; [lia|left; lia].
  - split; [lia|right]. unfold Reader.has_next. by rewrite Hnil.
Qed.

(** X3: [enqueue_up_to_boundary] moves messages from the reader to the
    tail of the queue without losing or reordering any; it does nothing
    when the queue already holds [boundary] messages, and otherwise stops
    with exactly [boundary] messages in the queue or with the reader
    exhausted, never above the boundary. *)
Theorem enqueue_up_to_boundary_fills (boundary : nat) (s : Player.t) :
  let s' := enqueue_up_to_boundary boundary s in
  stream s' = stream s ∧
  (boundary ≤ length (message_queue_ s) → s' = s)%nat ∧
  ((length (message_queue_ s) ≤ boundary)%nat →
   (length (message_queue_ s') ≤ boundary)%nat ∧
   (length (message_queue_ s') = boundary ∨
    Reader.has_next (reader_ s') = false)).
Proof.
  split_and!.
  - apply enqueue_loop_same.
  - intros Hfull. unfold enqueue_up_to_boundary.
    by replace (boundary - length (message_queue_ s))%nat with O by lia.
  - intros Hroom.
    by destruct (enqueue_up_to_boundary_room boundary s Hroom) as [_ ?].
Qed.

(** X4: a turn of the loop of [load_storage_content] neither loses nor
    reorders a message, never takes the queue above
    [read_ahead_queue_size], and ends the task only when the node is shut
    down or the reader has no next message. *)
Theorem load_storage_content_turn_bounded (s : Player.t) :
  let s' := load_storage_content_turn s in
  stream s' = stream s ∧
  ((length (message_queue_ s) ≤ queue_upper_boundary s)%nat →
   (length (message_queue_ s') ≤ queue_upper_boundary s')%nat) ∧
  (storage_loading_future_ s = TaskRunning →
   storage_loading_future_ s' = TaskDone →
   rclcpp_ok s = false ∨ Reader.has_next (reader_ s) = false).
Proof.
  split_and!.
  - apply load_storage_content_turn_same.
  - intros Hbound. unfold load_storage_content_turn.
    destruct (storage_loading_future_ s); try done.
    destruct (rclcpp_ok s); cbn; [|done].
    destruct (Reader.has_next (reader_ s)); cbn; [|done].
    case_bool_decide; [|done].
    destruct (enqueue_up_to_boundary_room (queue_upper_boundary s) s Hbound)
      as (_ & Hle & _).
    pose proof (enqueue_loop_same
      (queue_upper_boundary s - length (message_queue_ s)) s)
      as (_ & _ & _ & _ & Hopt & _).
    unfold enqueue_up_to_boundary, queue_upper_boundary in *.
    by rewrite Hopt.
  - intros Hf Hdone. unfold load_storage_content_turn in Hdone.
    rewrite Hf in Hdone.
    destruct (rclcpp_ok s); cbn in Hdone; [|by left].
    destruct (Reader.has_next (reader_ s)); cbn in Hdone; [|by right].
    exfalso. case_bool_decide; [|congruence].
    assert (∀ n s0, storage_loading_future_ s0 = TaskRunning →
              storage_loading_future_ (enqueue_loop n s0) = TaskRunning)
      as Hrun.
    { clear. induction n as [|n IH]; intros s0 Hf0; cbn [enqueue_loop]; [done|].
      unfold Reader.has_next, Reader.read_next.
      destruct (Reader.unread (reader_ s0)); cbn; [done|]. by apply IH. }
    unfold enqueue_up_to_boundary in Hdone. rewrite Hrun in Hdone; done.
Qed.

(** *** [wait_for_filled_queue] *)

Lemma enqueue_loop_future (n : nat) : ∀ s,
  storage_loading_future_ (enqueue_loop n s) = storage_loading_future_ s.
Proof.
  induction n as [|n IH]; intros s; cbn [enqueue_loop]; [done|].
  unfold Reader.has_next, Reader.read_next.
  destruct (Reader.unread (reader_ s)); cbn; [done|]. by rewrite IH.
Qed.

Lemma wait_loop_turn (fuel : nat) s :
  rclcpp_ok s = true → storage_loading_future_ s = TaskRunning →
  (length (message_queue_ s) < queue_upper_boundary s)%nat →
  wait_for_filled_queue_loop (S fuel) s =
  wait_for_filled_queue_loop fuel (load_storage_content_turn s).
Proof.
  intros Hok Hf Hsize. cbn [wait_for_filled_queue_loop].
  erewrite bind_returns by reflexivity.
  erewrite bind_returns by reflexivity.
  rewrite bool_decide_true by done.
  erewrite bind_returns
    by (unfold is_storage_completely_loaded; by rewrite Hf).
  erewrite bind_returns by reflexivity. rewrite Hok. cbn [negb andb].
  by erewrite bind_returns by reflexivity.
Qed.


Lemma lower_boundary_le_upper s :
  (queue_lower_boundary s ≤ queue_upper_boundary s)%nat.
Proof.
  unfold queue_lower_boundary, queue_upper_boundary.
  apply Nat.Div0.div_le_upper_bound. lia.
Qed.



(** *** [play_messages_from_queue] *)

Section ClockedFacts.

Variable sleep_until : Z → Player.t → bool.

(** A clock that is not paused reaches every time. *)
Hypothesis sleep_until_running :
  ∀ time s, Clock.is_paused (clock_ s) = false → sleep_until time s = true.




(** *** A pass of [play] over the bag *)


(** A producer task that does not end within two turns is asleep: its
    turns change nothing any more. *)
Lemma load_storage_content_turn_settles s :
  let s1 := load_storage_content_turn s in
  let s2 := load_storage_content_turn s1 in
  storage_loading_future_ s2 = TaskRunning →
  load_storage_content_turn s2 = s2.
Proof.
  intros s1 s2 Hf2.
  assert (∀ s0, storage_loading_future_ s0 = TaskRunning →
            rclcpp_ok s0 = true → Reader.has_next (reader_ s0) = true →
            (queue_lower_boundary s0 ≤ length (message_queue_ s0))%nat →
            load_storage_content_turn s0 = s0) as Hsleeps.
  { intros s0 Hf Hok Hnext Hsize. unfold load_storage_content_turn.
    rewrite Hf, Hok, Hnext. cbn [negb].
    by rewrite bool_decide_false by lia. }
  assert (∀ s0, storage_loading_future_ (load_storage_content_turn s0)
                  = TaskRunning →
            load_storage_content_turn s0 = s0 ∨
            storage_loading_future_ s0 = TaskRunning ∧ rclcpp_ok s0 = true ∧
            (length (message_queue_ s0) < queue_lower_boundary s0)%nat ∧
            load_storage_content_turn s0 =
              enqueue_up_to_boundary (queue_upper_boundary s0) s0) as Hturn.
  { intros s0. unfold load_storage_content_turn.
    destruct (storage_loading_future_ s0) eqn:Hf; try by left.
    destruct (rclcpp_ok s0); cbn [negb]; [|done].
    destruct (Reader.has_next (reader_ s0)); cbn [negb]; [|done].
    case_bool_decide; [|by left]. intros _. by right. }
  assert (∀ s0, storage_loading_future_ s0 = TaskRunning → rclcpp_ok s0 = true →
            (length (message_queue_ s0) < queue_lower_boundary s0)%nat →
            let s' := enqueue_up_to_boundary (queue_upper_boundary s0) s0 in
            storage_loading_future_ (load_storage_content_turn s') = TaskRunning →
            load_storage_content_turn s' = s') as Hfilled.
  { intros s0 Hf Hok Hsize s' Hf'.
    pose proof (lower_boundary_le_upper s0) as Hlow.
    destruct (enqueue_up_to_boundary_room (queue_upper_boundary s0) s0)
      as (_ & Hle & Hfull); [lia|]. fold s' in Hle, Hfull.
    pose proof (enqueue_loop_same
      (queue_upper_boundary s0 - length (message_queue_ s0)) s0)
      as (_ & _ & _ & _ & Hopt & Hok' & _).
    fold (enqueue_up_to_boundary (queue_upper_boundary s0) s0) in Hopt, Hok'.
    fold s' in Hopt, Hok'.
    assert (storage_loading_future_ s' = TaskRunning) as Hfs.
    { unfold s', enqueue_up_to_boundary. by rewrite enqueue_loop_future. }
    destruct (Reader.has_next (reader_ s')) eqn:Hnext.
    - apply Hsleeps; [done|congruence|done|].
      destruct Hfull as [Hfull|?]; [|congruence].
      unfold queue_lower_boundary, queue_upper_boundary in *.
      rewrite Hopt. lia.
    - exfalso. unfold load_storage_content_turn in Hf'.
      rewrite Hfs, Hok', Hok, Hnext in Hf'. by destruct (negb true). }
  subst s2. destruct (Hturn s1 Hf2) as [Hsame|(Hf1 & Hok1 & Hsize1 & Hfill1)].
  { by rewrite !Hsame. }
  destruct (Hturn s Hf1) as [Hsame|(Hf & Hok & Hsize & Hfill)].
  { subst s1. by rewrite !Hsame. }
  subst s1. rewrite Hfill in *. clear Hfill.
  pose proof (Hfilled s Hf Hok Hsize Hf2) as Hfix. cbv zeta in Hfix.
  by rewrite !Hfix.
Qed.

(** [join_loader] returns when the task has ended, and hangs only on a
    task that is asleep. *)
Lemma join_loader_spec s :
  match join_loader s with
  | Ret _ s' => rtc loading_step s s' ∧ storage_loading_future_ s' ≠ TaskRunning
  | Hang => ∃ s1, rtc loading_step s s1 ∧
                  storage_loading_future_ s1 = TaskRunning ∧
                  load_storage_content_turn s1 = s1
  | _ => False
  end.
Proof.
  unfold join_loader. cbn [join_loader_loop].
  pose proof (load_storage_content_turn_loading s) as Hl1.
  pose proof (load_storage_content_turn_loading (load_storage_content_turn s))
    as Hl2.
  pose proof (load_storage_content_turn_settles s) as Hsettles.
  cbv zeta in Hsettles.
  destruct (storage_loading_future_ s) eqn:Hf; [by split; [|congruence]| |by split; [|congruence]].
  set (s1 := load_storage_content_turn s) in *.
  destruct (storage_loading_future_ s1) eqn:Hf1;
    [by split; [|congruence]| |by split; [|congruence]].
  set (s2 := load_storage_content_turn s1) in *.
  destruct (storage_loading_future_ s2) eqn:Hf2;
    [split; [by etrans|congruence]| |split; [by etrans|congruence]].
  exists s2. split_and!; [by etrans|done|by apply Hsettles].
Qed.




End ClockedFacts.
End PlaybackFacts.

Section PlaybackFactsWitnesses.
Import Player Playback.

Lemma enqueue_up_to_boundary_fills_witness :
  let s' := enqueue_up_to_boundary 2 Samples.running_player in
  (length (message_queue_ s') ≤ 2)%nat ∧
  (length (message_queue_ s') = 2%nat ∨
   Reader.has_next (reader_ s') = false).
Proof.
  pose proof (enqueue_up_to_boundary_fills 2 Samples.running_player) as H.
  cbv zeta in H. destruct H as (_ & _ & H). apply H. simpl. lia.
Defined.

Lemma load_storage_content_turn_bounded_witness :
  let s' := load_storage_content_turn Samples.running_player in
  stream s' = stream Samples.running_player ∧
  (length (message_queue_ s') ≤ queue_upper_boundary s')%nat.
Proof.
  pose proof (load_storage_content_turn_bounded Samples.running_player) as H.
  cbv zeta in H. destruct H as (Hstream & H & _).
  split; [exact Hstream|]. apply H. vm_compute. lia.
Defined.




End PlaybackFactsWitnesses.

(** ** Playback engine: stepping and seeking *)

Section SteppingFacts.
Import Player Playback.



Lemma seek_keeps (time_point : Z) s s' :
  seek time_point s = Ret () s' →
  starting_time_ s' = starting_time_ s ∧
  is_ready_to_play_from_queue_ s' = is_ready_to_play_from_queue_ s ∧
  rclcpp_ok s' = rclcpp_ok s ∧
  play_options_ s' = play_options_ s.
Proof.
  unfold seek. intros Hrun.
  apply bind_inv in Hrun as ([] & s1 & [= <-] & Hrun).
  apply bind_inv in Hrun as ([] & s2 & Hwait & Hrun).
  unfold wait_until_ready_to_play in Hwait. cbn in Hwait.
  destruct (is_ready_to_play_from_queue_ s) eqn:Hready; [|done].
  injection Hwait as <-.
  apply bind_inv in Hrun as ([] & s3 & [= <-] & Hrun).
  apply bind_inv in Hrun as (start & s4 & [= <- <-] & Hrun).
  cbv zeta in Hrun.
  apply bind_inv in Hrun as ([] & s5 & Hpurge & Hrun).
  erewrite purge_queue_spec in Hpurge by (cbn; lia).
  injection Hpurge as <-.
  apply bind_inv in Hrun as ([] & s6 & [= <-] & Hrun).
  apply bind_inv in Hrun as ([] & s7 & [= <-] & Hrun).
  apply bind_inv in Hrun as (loaded & s8 & Hloaded & Hrun).
  apply bind_inv in Hrun as (ok & s9 & [= <- <-] & Hrun).
  unfold is_storage_completely_loaded in Hloaded. cbn in Hloaded.
  destruct (storage_loading_future_ s); injection Hloaded as <- <-;
    cbn in Hrun; destruct (rclcpp_ok s) eqn:Hok; cbn in Hrun;
    injection Hrun as <-; cbn; by rewrite ?Hok.
Qed.

(** X8: [seek] is absolute: after a seek to [t1], a seek to [t2] leaves
    the reader, the queue and the time of the clock as a single seek to
    [t2] does; the clock has been jumped twice, each time to the time
    asked, or to the starting time when that is later. *)
Theorem seek_is_absolute (t1 t2 : Z) (s : Player.t) :
  is_ready_to_play_from_queue_ s = true →
  ∃ s1 s12 s2,
    seek t1 s = Ret () s1 ∧ seek t2 s1 = Ret () s12 ∧
    seek t2 s = Ret () s2 ∧
    reader_ s12 = reader_ s2 ∧
    message_queue_ s12 = message_queue_ s2 ∧
    Clock.base_bag_time (clock_ s12) = Clock.base_bag_time (clock_ s2) ∧
    Clock.jumps (clock_ s12) =
      Clock.jumps (clock_ s) ++
      [Z.max t1 (starting_time_ s); Z.max t2 (starting_time_ s)].
Proof.
  intros Hready.
  destruct (seek_spec t1 s Hready)
    as (s1 & Hrun1 & Hq1 & Hr1 & Hc1 & _).
  destruct (seek_keeps _ _ _ Hrun1) as (Hstart1 & Hready1 & _).
  destruct (seek_spec t2 s1) as (s12 & Hrun12 & Hq12 & Hr12 & Hc12 & _);
    [congruence|].
  destruct (seek_spec t2 s Hready) as (s2 & Hrun2 & Hq2 & Hr2 & Hc2 & _).
  exists s1, s12, s2.
  rewrite !clamp_to_start_max in *. rewrite Hstart1 in *.
  split_and!; try done.
  - by rewrite Hr12, Hr2, Hr1.
  - congruence.
  - by rewrite Hc12, Hc2.
  - rewrite Hc12, Hc1. cbn. by rewrite <- app_assoc.
Qed.

End SteppingFacts.

Section SteppingFactsWitnesses.
Import Player Playback.


Lemma seek_is_absolute_witness :
  ∃ s1 s12 s2,
    seek 30 (Scenario.finished_player true) = Ret () s1 ∧
    seek 20 s1 = Ret () s12 ∧
    seek 20 (Scenario.finished_player true) = Ret () s2 ∧
    reader_ s12 = reader_ s2 ∧
    message_queue_ s12 = message_queue_ s2 ∧
    Clock.base_bag_time (clock_ s12) = Clock.base_bag_time (clock_ s2) ∧
    Clock.jumps (clock_ s12) =
      Clock.jumps (clock_ (Scenario.finished_player true)) ++
      [Z.max 30 (starting_time_ (Scenario.finished_player true));
       Z.max 20 (starting_time_ (Scenario.finished_player true))].
Proof.
  apply (seek_is_absolute 30 20 (Scenario.finished_player true)).
  reflexivity.
Defined.

End SteppingFactsWitnesses.

(** ** Waiting for the queue *)

Section WaitFacts.
Import Player Playback.

Lemma wait_loop_full (fuel : nat) s :
  (queue_upper_boundary s ≤ length (message_queue_ s))%nat →
  wait_for_filled_queue_loop (S fuel) s = Ret () s.
Proof.
  intros Hfull. cbn [wait_for_filled_queue_loop].
  erewrite bind_returns by reflexivity.
  erewrite bind_returns by reflexivity.
  unfold queue_upper_boundary in Hfull.
  rewrite bool_decide_false by lia. done.
Qed.

Lemma wait_loop_done (fuel : nat) s :
  storage_loading_future_ s = TaskDone →
  (length (message_queue_ s) < queue_upper_boundary s)%nat →
  wait_for_filled_queue_loop (S fuel) s =
    Ret () (set_storage_loading_future_ NoTask s).
Proof.
  intros Hf Hroom. cbn [wait_for_filled_queue_loop].
  erewrite bind_returns by reflexivity.
  erewrite bind_returns by reflexivity.
  rewrite bool_decide_true by done.
  erewrite bind_returns
    by (unfold is_storage_completely_loaded; by rewrite Hf).
  erewrite bind_returns by reflexivity. done.
Qed.

(** X9: with the producer task loading on a running node and a queue below
    the lower boundary, [wait_for_filled_queue] returns, no message lost or
    reordered, either with [read_ahead_queue_size] messages in the queue, or
    with the whole rest of the bag in the queue, the reader exhausted and
    the finished task taken. *)
Theorem wait_for_filled_queue_fills (s : Player.t) :
  rclcpp_ok s = true →
  storage_loading_future_ s = TaskRunning →
  (length (message_queue_ s) < queue_lower_boundary s)%nat →
  ∃ s',
    wait_for_filled_queue s = Ret () s' ∧
    stream s' = stream s ∧
    (length (message_queue_ s') = read_ahead_queue_size (play_options_ s) ∧
     storage_loading_future_ s' = TaskRunning ∨
     message_queue_ s' = stream s ∧ Reader.has_next (reader_ s') = false ∧
     storage_loading_future_ s' = NoTask).
Proof.
  intros Hok Hf Hsize.
  pose proof (lower_boundary_le_upper s) as Hlow.
  unfold wait_for_filled_queue, filled_queue_polls.
  rewrite wait_loop_turn by (done || lia).
  unfold load_storage_content_turn. rewrite Hf, Hok. cbn [negb].
  destruct (Reader.has_next (reader_ s)) eqn:Hnext; cbn [negb].
  2: { rewrite wait_loop_done by (done || cbn; unfold queue_upper_boundary in *; cbn; lia).
       eexists. split; [reflexivity|]. split; [reflexivity|]. right.
       unfold stream. cbn. split; [|done].
       unfold Reader.has_next in Hnext.
       destruct (Reader.unread (reader_ s)); [|done].
       by rewrite app_nil_r. }
  rewrite bool_decide_true by done.
  set (s1 := enqueue_up_to_boundary (queue_upper_boundary s) s).
  destruct (enqueue_up_to_boundary_room (queue_upper_boundary s) s)
    as (Hstream & Hle & Hfilled); [lia|]. fold s1 in Hstream, Hle, Hfilled.
  assert (queue_upper_boundary s1 = queue_upper_boundary s) as Hupper.
  { pose proof (enqueue_loop_same
      (queue_upper_boundary s - length (message_queue_ s)) s)
      as (_ & _ & _ & _ & Hopt & _).
    unfold queue_upper_boundary, s1, enqueue_up_to_boundary. by rewrite Hopt. }
  assert (storage_loading_future_ s1 = TaskRunning) as Hf1.
  { unfold s1, enqueue_up_to_boundary. by rewrite enqueue_loop_future. }
  assert (rclcpp_ok s1 = true) as Hok1.
  { pose proof (enqueue_loop_same
      (queue_upper_boundary s - length (message_queue_ s)) s)
      as (_ & _ & _ & _ & _ & Hok1 & _).
    unfold s1, enqueue_up_to_boundary. by rewrite Hok1. }
  clearbody s1.
  destruct (decide (queue_upper_boundary s1 ≤ length (message_queue_ s1))%nat)
    as [Hfull|Hroom].
  { rewrite wait_loop_full by done. exists s1. split; [done|].
    split; [done|]. left. unfold queue_upper_boundary in *. split; [lia|done]. }
  destruct Hfilled as [Hfull|Hempty]; [lia|].
  rewrite wait_loop_turn by (done || lia).
  unfold load_storage_content_turn.
  rewrite Hf1, Hok1, Hempty. cbn [negb].
  rewrite wait_loop_done by (done || cbn; unfold queue_upper_boundary in *; cbn; lia).
  eexists. split; [reflexivity|]. split; [exact Hstream|]. right. cbn.
  split; [|done]. rewrite <-Hstream. unfold stream.
  unfold Reader.has_next in Hempty.
  destruct (Reader.unread (reader_ s1)); [|done]. by rewrite app_nil_r.
Qed.

End WaitFacts.

Section WaitFactsWitnesses.
Import Player Playback.

Lemma wait_for_filled_queue_fills_witness :
  ∃ s',
    wait_for_filled_queue Samples.running_player = Ret () s' ∧
    stream s' = stream Samples.running_player ∧
    (length (message_queue_ s') =
       read_ahead_queue_size (play_options_ Samples.running_player) ∧
     storage_loading_future_ s' = TaskRunning ∨
     message_queue_ s' = stream Samples.running_player ∧
     Reader.has_next (reader_ s') = false ∧
     storage_loading_future_ s' = NoTask).
Proof.
  apply (wait_for_filled_queue_fills Samples.running_player);
    [reflexivity|reflexivity|vm_compute; lia].
Defined.

End WaitFactsWitnesses.

(** ** Pausing and resuming *)

Section PauseFacts.
Import Player Playback.

(** X10: [toggle_paused] flips the paused state of the clock and touches
    neither its time, the messages nor what was published; toggling twice
    gives the clock back; and [play_next] right after a toggle that
    resumed the clock returns false with nothing dequeued, published or
    jumped. *)
Theorem toggle_paused_gates_play_next (s : Player.t) :
  (∃ s1, toggle_paused s = Ret () s1 ∧
         Clock.is_paused (clock_ s1) = negb (Clock.is_paused (clock_ s)) ∧
         Clock.base_bag_time (clock_ s1) = Clock.base_bag_time (clock_ s) ∧
         Clock.jumps (clock_ s1) = Clock.jumps (clock_ s) ∧
         stream s1 = stream s ∧ published s1 = published s) ∧
  (∃ s2, (toggle_paused;; toggle_paused) s = Ret () s2 ∧
         clock_ s2 = clock_ s ∧
         stream s2 = stream s ∧ published s2 = published s) ∧
  (Clock.is_paused (clock_ s) = true →
   ∃ s3, (toggle_paused;; play_next) s = Ret false s3 ∧
         Clock.is_paused (clock_ s3) = false ∧
         Clock.jumps (clock_ s3) = Clock.jumps (clock_ s) ∧
         message_queue_ s3 = message_queue_ s ∧
         reader_ s3 = reader_ s ∧ published s3 = published s).
Proof.
  destruct s as [r [p b j] q pubs st o f rdy cv sk cw ok lg pb].
  destruct p; split_and!; try (intros [=]); try (intros _); eexists;
    (split; [reflexivity|done]).
Qed.

End PauseFacts.

Section PauseFactsWitnesses.
Import Player Playback.

Lemma toggle_paused_gates_play_next_witness :
  ∃ s3,
    (toggle_paused;; play_next) Scenario.stepping_player = Ret false s3 ∧
    Clock.is_paused (clock_ s3) = false ∧
    Clock.jumps (clock_ s3) = Clock.jumps (clock_ Scenario.stepping_player) ∧
    message_queue_ s3 = message_queue_ Scenario.stepping_player ∧
    reader_ s3 = reader_ Scenario.stepping_player ∧
    published s3 = published Scenario.stepping_player.
Proof.
  apply (toggle_paused_gates_play_next Scenario.stepping_player).
  reflexivity.
Defined.

End PauseFactsWitnesses.

(** ** Publishers of the player *)

Section PublishersFacts.
Import Player Publishers.

Variable lib : Qos.Library.
Variable setup : Setup.

Local Abbreviation created_for := (Publishers.created_for lib setup).
Local Abbreviation grown := (Publishers.grown lib setup).
Local Abbreviation escapes := (Publishers.escapes lib setup).

Lemma grown_refl topics s : grown topics s s.
Proof. unfold Publishers.grown. split_and!; auto. Qed.

Lemma grown_trans topics s1 s2 s3 :
  grown topics s1 s2 → grown topics s2 s3 → grown topics s1 s3.
Proof.
  intros (Hk1 & Hn1 & ? & ? & ?) (Hk2 & Hn2 & ? & ? & ?).
  split_and!; try congruence; [by auto|].
  intros k p Hp. destruct (Hn2 k p Hp) as [Hold|Hnew]; [auto|by right].
Qed.

Lemma grown_mono topics topics' s s' :
  topics ⊆ topics' → grown topics s s' → grown topics' s s'.
Proof.
  intros Hsub (Hk & Hn & ? & ? & ?). split_and!; try done.
  intros k p Hp. destruct (Hn k p Hp) as [?|(Hf & topic & Hin & ? & ?)];
    [by left|right].
  split; [done|]. exists topic. split_and!; [by apply Hsub|done..].
Qed.

Lemma escapes_mono topics topics' e :
  topics ⊆ topics' → escapes topics e → escapes topics' e.
Proof.
  intros Hsub [Hclock|[(topic & Hin & Hrest)|(topic & Hin & Hrest)]].
  - by left.
  - right; left. exists topic. split; [by apply Hsub|done].
  - right; right. exists topic. split; [by apply Hsub|done].
Qed.

(** How [prepare_topic] ends: normally, or with the exception of the parse
    of the offered profiles, or with an exception of the transport that is
    no runtime error; in every case with publishers grown for the topic. *)
Lemma prepare_topic_ends topic s :
  ∃ s', grown [topic] s s' ∧
    (prepare_topic lib setup topic s = Ret () s' ∨
     ∃ e, prepare_topic lib setup topic s = Raise e s' ∧ escapes [topic] e).
Proof.
  unfold prepare_topic.
  destruct (publishers_ s !! name topic) as [p|] eqn:Hp.
  { exists s. split; [apply grown_refl|by left]. }
  destruct (passes_filter setup (name topic)) eqn:Hf; cbn [negb].
  2: { exists s. split; [apply grown_refl|by left]. }
  destruct (publisher_qos_error setup topic) as [e|] eqn:Hparse.
  { exists s. split; [apply grown_refl|]. right. exists e. split; [done|].
    right; left. exists topic.
    split_and!; [by apply list_elem_of_singleton|done|done]. }
  destruct (publisher_qos_for_topic lib topic _) as [lines qos] eqn:Hqos.
  destruct (create_generic_publisher setup (name topic) (type topic) qos)
    as [[what|what]|publisher] eqn:Hcreate.
  - eexists. split; [|by left]. unfold Publishers.grown. cbn. split_and!; auto.
  - eexists. split; last first.
    { right. eexists. split; [done|]. right; right. exists topic.
      split_and!; [by apply list_elem_of_singleton|done| |done].
      by rewrite Hqos. }
    unfold Publishers.grown. cbn. split_and!; auto.
  - eexists. split; [|by left]. unfold Publishers.grown. cbn. split_and!; try done.
    + intros k p Hk. rewrite lookup_insert_ne; [done|congruence].
    + intros k p Hk. destruct (decide (name topic = k)) as [<-|Hne].
      * rewrite lookup_insert_eq in Hk. injection Hk as <-. right.
        split; [done|]. exists topic.
        split_and!; [by apply list_elem_of_singleton|done|by rewrite Hqos].
      * rewrite lookup_insert_ne in Hk by done. by left.
Qed.

Lemma prepare_topics_ends topics : ∀ s,
  ∃ s', grown topics s s' ∧
    (prepare_topics lib setup topics s = Ret () s' ∨
     ∃ e, prepare_topics lib setup topics s = Raise e s' ∧ escapes topics e).
Proof.
  induction topics as [|topic topics IH]; intros s.
  { exists s. split; [apply grown_refl|by left]. }
  assert ([topic] ⊆ topic :: topics) as Hhead.
  { intros x ->%list_elem_of_singleton. by left. }
  assert (topics ⊆ topic :: topics) as Htail.
  { intros x Hx. by right. }
  cbn [prepare_topics].
  destruct (prepare_topic_ends topic s) as (s1 & Hg1 & [Hrun|(e & Hrun & He)]).
  - destruct (IH s1) as (s' & Hg & Hend). exists s'. split.
    + eapply grown_trans; (eapply grown_mono; [|done]); done.
    + erewrite bind_returns by exact Hrun.
      destruct Hend as [Hend|(e & Hend & He)]; [by left|].
      right. exists e. split; [done|]. exact (escapes_mono _ _ _ Htail He).
  - exists s1. split.
    { exact (grown_mono _ _ _ _ Hhead Hg1). }
    right. exists e. split; [|exact (escapes_mono _ _ _ Hhead He)].
    unfold mbind, M_bind. by rewrite Hrun.
Qed.

(** X11: [prepare_publishers] sets the filter of the reader, keeps every
    publisher that exists, and adds only publishers that the transport
    created for a topic of the catalog let through by [topics_to_filter];
    with a filter that is not empty, the reader only returns messages of
    the filtered topics and no publisher is added for another topic.
    This holds whether it returns or throws; what it throws comes from the
    "/clock" block, from the parse of the offered profiles of a topic, or
    from [create_generic_publisher] without being a runtime error: a
    runtime error of [create_generic_publisher] does not leave it. *)
Theorem prepare_publishers_respects_filter (s : Player.t) :
  ∃ s',
    (prepare_publishers lib setup s = Ret (clock_publish_period setup) s' ∨
     ∃ e, prepare_publishers lib setup s = Raise e s' ∧
          escapes (get_all_topics_and_types setup) e) ∧
    reader_ s' = set_filter (topics_to_filter setup) (reader_ s) ∧
    (∀ k p, publishers_ s !! k = Some p → publishers_ s' !! k = Some p) ∧
    (∀ k p, publishers_ s' !! k = Some p →
       publishers_ s !! k = Some p ∨
       created_for (get_all_topics_and_types setup) k p) ∧
    (topics_to_filter setup ≠ [] →
     Forall (λ m, topic_name m ∈ topics_to_filter setup)
            (Reader.unread (reader_ s')) ∧
     ∀ k, k ∉ topics_to_filter setup →
          publishers_ s' !! k = publishers_ s !! k).
Proof.
  unfold prepare_publishers.
  erewrite bind_returns by reflexivity.
  set (s0 := set_reader_ _ s).
  assert (∀ s', reader_ s' = reader_ s0 →
            (∀ k p, publishers_ s' !! k = Some p →
               publishers_ s !! k = Some p ∨
               created_for (get_all_topics_and_types setup) k p) →
            (∀ k p, publishers_ s !! k = Some p →
               publishers_ s' !! k = Some p) →
            topics_to_filter setup ≠ [] →
            Forall (λ m, topic_name m ∈ topics_to_filter setup)
                   (Reader.unread (reader_ s')) ∧
            ∀ k, k ∉ topics_to_filter setup →
                 publishers_ s' !! k = publishers_ s !! k) as Hfiltered.
  { intros s' Hr Hnew Hkept Hfilter. split.
    - rewrite Hr. subst s0. cbn. unfold set_filter.
      rewrite bool_decide_false by done. cbn.
      apply Forall_forall. intros m Hm.
      by apply list_elem_of_filter in Hm as [? _].
    - intros k Hk. destruct (publishers_ s' !! k) as [p|] eqn:Hp.
      + destruct (Hnew k p Hp) as [Hold|[Hpass _]]; [done|].
        unfold passes_filter in Hpass.
        rewrite bool_decide_false, bool_decide_false in Hpass; done.
      + destruct (publishers_ s !! k) as [p|] eqn:Hold; [|done].
        apply Hkept in Hold. congruence. }
  unfold create_clock_publisher.
  destruct (clock_publish_period setup) as [publish_period|] eqn:Hperiod;
    [destruct (create_clock_publisher_error setup) as [e|] eqn:Hclock|].
  { exists s0. split_and!; [|done|done|by left|by apply Hfiltered; auto].
    right. exists e. split; [done|]. left. by split; [eexists|]. }
  all: destruct (prepare_topics_ends (get_all_topics_and_types setup) s0)
    as (s' & (Hkept & Hnew & Hr & _ & _) & Hend);
    exists s'; (split_and!; [|by rewrite Hr|exact Hkept|exact Hnew
                            |by apply Hfiltered]);
    (destruct Hend as [Hrun|(e & Hrun & He)];
     [left; erewrite bind_returns by reflexivity;
      by erewrite bind_returns by exact Hrun
     |right; exists e; split; [|done];
      erewrite bind_returns by reflexivity;
      unfold mbind, M_bind; by rewrite Hrun]).
Qed.

Lemma prepare_topics_create topics : ∀ s s',
  prepare_topics lib setup topics s = Ret () s' →
  ∀ topic p, topic ∈ topics →
    passes_filter setup (name topic) = true →
    create_generic_publisher setup (name topic) (type topic)
      (publisher_qos_for_topic lib topic
         (topic_qos_profile_overrides_ setup)).2 = inr p →
    is_Some (publishers_ s' !! name topic).
Proof.
  induction topics as [|t0 topics IH]; intros s s' Hrun topic p Hin Hpass Hp.
  { by apply elem_of_nil in Hin. }
  cbn [prepare_topics] in Hrun.
  apply bind_inv in Hrun as ([] & s1 & Hfirst & Hrun).
  apply elem_of_cons in Hin as [->|Hin]; [|by eapply IH].
  destruct (prepare_topics_ends topics s1) as (s2 & (Hkept & _) & Hend).
  assert (s2 = s') as ->.
  { destruct Hend as [Hend|(e & Hend & _)]; congruence. }
  assert (is_Some (publishers_ s1 !! name t0)) as [q Hq];
    [|by exists q; apply Hkept].
  unfold prepare_topic in Hfirst.
  destruct (publishers_ s !! name t0) as [q|] eqn:Hold.
  { injection Hfirst as <-. by exists q. }
  rewrite Hpass in Hfirst. cbn [negb] in Hfirst.
  destruct (publisher_qos_error setup t0); [done|].
  destruct (publisher_qos_for_topic lib t0 _) as [lines qos] eqn:Hqos.
  cbn [snd] in Hp. rewrite Hp in Hfirst. injection Hfirst as <-.
  cbn. rewrite lookup_insert_eq. by eexists.
Qed.

(** X12: when the "/clock" publisher and its timer can be created, the
    offered profiles of the topics of the catalog parse, and
    [create_generic_publisher] fails with runtime errors only,
    [prepare_publishers] returns (these failures end up as warnings), and
    every topic of the catalog that the filter lets through and for which
    the transport can create a publisher has one. *)
Theorem prepare_publishers_creates_what_it_can (s : Player.t) :
  (is_Some (clock_publish_period setup) →
   create_clock_publisher_error setup = None) →
  (∀ topic, topic ∈ get_all_topics_and_types setup →
            publisher_qos_error setup topic = None) →
  (∀ topic_name topic_type qos e,
     create_generic_publisher setup topic_name topic_type qos = inl e →
     ∃ what, e = runtime_error what) →
  ∃ s',
    prepare_publishers lib setup s = Ret (clock_publish_period setup) s' ∧
    ∀ topic p, topic ∈ get_all_topics_and_types setup →
      passes_filter setup (name topic) = true →
      create_generic_publisher setup (name topic) (type topic)
        (publisher_qos_for_topic lib topic
           (topic_qos_profile_overrides_ setup)).2 = inr p →
      is_Some (publishers_ s' !! name topic).
Proof.
  intros Hclock Hparse Hruntime. unfold prepare_publishers.
  erewrite bind_returns by reflexivity.
  set (s0 := set_reader_ _ s).
  assert (create_clock_publisher setup s0 =
            Ret (clock_publish_period setup) s0) as Htimer.
  { unfold create_clock_publisher.
    destruct (clock_publish_period setup) as [publish_period|]; [|done].
    by rewrite Hclock. }
  erewrite bind_returns by exact Htimer.
  assert (∀ topics s1, topics ⊆ get_all_topics_and_types setup →
            ∃ s2, prepare_topics lib setup topics s1 = Ret () s2)
    as Hreturns.
  { induction topics as [|t0 topics IH]; intros s1 Hsub; [by eexists|].
    cbn [prepare_topics].
    assert (∃ s2, prepare_topic lib setup t0 s1 = Ret () s2) as [s2 Hfirst].
    { unfold prepare_topic.
      destruct (publishers_ s1 !! name t0); [by eexists|].
      destruct (negb _); [by eexists|].
      rewrite Hparse by (apply Hsub; by left).
      destruct (publisher_qos_for_topic lib t0 _) as [lines qos].
      destruct (create_generic_publisher setup (name t0) (type t0) qos)
        as [e|publisher] eqn:Hcreate; [|by eexists].
      destruct (Hruntime _ _ _ _ Hcreate) as [what ->]. by eexists. }
    erewrite bind_returns by exact Hfirst. apply IH.
    intros x Hx. apply Hsub. by right. }
  destruct (Hreturns (get_all_topics_and_types setup) s0) as [s' Hrun]; [done|].
  exists s'. split; [by erewrite bind_returns by exact Hrun|].
  intros topic p. by eapply prepare_topics_create.
Qed.

End PublishersFacts.

Section PublishersFactsWitnesses.
Import Player Publishers.

Lemma prepare_publishers_respects_filter_witness :
  ∃ s',
    (prepare_publishers Scenario.toy_library Samples.filtering_setup
       Samples.unprepared_player = Ret None s' ∨
     ∃ e, prepare_publishers Scenario.toy_library Samples.filtering_setup
            Samples.unprepared_player = Raise e s' ∧
          escapes Scenario.toy_library Samples.filtering_setup
            (get_all_topics_and_types Samples.filtering_setup) e) ∧
    Forall (λ m, topic_name m ∈ ["/a"; "/c"]%string)
           (Reader.unread (reader_ s')) ∧
    ∀ k, k ∉ ["/a"; "/c"]%string →
         publishers_ s' !! k = publishers_ Samples.unprepared_player !! k.
Proof.
  destruct (prepare_publishers_respects_filter Scenario.toy_library
              Samples.filtering_setup Samples.unprepared_player)
    as (s' & Hrun & _ & _ & _ & Hfilter).
  exists s'. split; [exact Hrun|]. apply Hfilter. discriminate.
Defined.

(** The runtime error of the parse of offered profiles leaves
    [prepare_publishers], and the topics after it get no publisher. *)
Example prepare_publishers_parse_error_escapes :
  ∃ s',
    prepare_publishers Scenario.toy_library Samples.unparseable_setup
      Samples.unprepared_player = Raise (runtime_error "bad conversion") s' ∧
    publishers_ s' !! "/a"%string = None.
Proof. eexists. split; [vm_compute; reflexivity|reflexivity]. Qed.

Lemma prepare_publishers_creates_what_it_can_witness :
  ∃ s',
    prepare_publishers Scenario.toy_library Samples.filtering_setup
      Samples.unprepared_player = Ret None s' ∧
    ∀ topic p, topic ∈ get_all_topics_and_types Samples.filtering_setup →
      passes_filter Samples.filtering_setup (name topic) = true →
      create_generic_publisher Samples.filtering_setup (name topic)
        (type topic)
        (publisher_qos_for_topic Scenario.toy_library topic
           (topic_qos_profile_overrides_ Samples.filtering_setup)).2 = inr p →
      is_Some (publishers_ s' !! name topic).
Proof.
  apply (prepare_publishers_creates_what_it_can Scenario.toy_library
           Samples.filtering_setup Samples.unprepared_player).
  - intros [period Hperiod]. discriminate Hperiod.
  - intros topic _. unfold publisher_qos_error. cbn.
    by case_bool_decide.
  - intros topic_name topic_type qos e. cbn.
    case_bool_decide; intros [= <-]. by eexists.
Defined.

End PublishersFactsWitnesses.

(** ** Subscriptions and discovery of the recorder *)

Section DiscoveryFacts.
Import Recorder Discovery.

Variable lib : Qos.Library.

(** What [subscribe_topic] does to the subscriptions and to the topics of
    the writer. *)
Lemma subscribe_topic_effect env topic s :
  let s' := subscribe_topic lib env topic s in
  ∃ qos,
    match create_generic_subscription env (name topic) (type topic) qos with
    | Some subscription =>
        subscriptions_ s' =
          (if subscriptions_ s !! name topic is Some _ then subscriptions_ s
           else <[name topic:=subscription]> (subscriptions_ s)) ∧
        Writer.topics (writer_ s') = Writer.topics (writer_ s) ++ [topic]
    | None =>
        subscriptions_ s' = delete (name topic) (subscriptions_ s) ∧
        Writer.topics (writer_ s') =
          filter (λ x, name x ≠ name topic)
                 (Writer.topics (writer_ s) ++ [topic])
    end.
Proof.
  unfold subscribe_topic, subscription_qos_for_topic. cbn.
  destruct (topic_qos_profile_overrides_ s !! name topic) as [qos|]; cbn.
  - exists qos.
    destruct (create_generic_subscription env _ _ _); cbn.
    + by destruct (subscriptions_ s !! name topic).
    + done.
  - exists (Qos.adapt_request_to_offers lib (name topic)
              (get_publishers_info_by_topic env (name topic))).
    destruct (create_generic_subscription env _ _ _); cbn.
    + by destruct (subscriptions_ s !! name topic).
    + done.
Qed.

Lemma subscribe_topic_knows env topic s :
  writer_knows_subscriptions s →
  writer_knows_subscriptions (subscribe_topic lib env topic s).
Proof.
  unfold writer_knows_subscriptions. intros Hknows k.
  destruct (subscribe_topic_effect env topic s) as [qos Heffect].
  destruct (create_generic_subscription env _ _ _) as [sub|];
    destruct Heffect as [-> ->].
  - rewrite fmap_app, elem_of_app.
    destruct (subscriptions_ s !! name topic) eqn:Hold.
    + intros Hk. left. by apply Hknows.
    + destruct (decide (name topic = k)) as [<-|Hne].
      * intros _. right. by apply list_elem_of_singleton.
      * rewrite lookup_insert_ne by done. intros Hk. left. by apply Hknows.
  - destruct (decide (name topic = k)) as [<-|Hne].
    + rewrite lookup_delete_eq. by intros [? ?].
    + rewrite lookup_delete_ne by done. intros Hk%Hknows.
      apply list_elem_of_fmap in Hk as (tm & -> & Hin).
      apply list_elem_of_fmap. exists tm. split; [done|].
      apply list_elem_of_filter. split; [congruence|].
      apply elem_of_app. by left.
Qed.

Lemma subscribe_topics_knows env topics : ∀ s,
  writer_knows_subscriptions s →
  writer_knows_subscriptions (subscribe_topics lib env topics s).
Proof.
  unfold subscribe_topics.
  induction topics as [|topic topics IH]; intros s Hknows; [done|].
  cbn [foldl]. by apply IH, subscribe_topic_knows.
Qed.

Lemma warn_about_publisher_keeps_subscriptions topic_name used s new_profile :
  subscriptions_ (warn_about_publisher topic_name used s new_profile) =
    subscriptions_ s ∧
  writer_ (warn_about_publisher topic_name used s new_profile) = writer_ s.
Proof.
  unfold warn_about_publisher.
  destruct (_ && _); [done|]. by destruct (_ && _).
Qed.

Lemma warn_scan_keeps_subscriptions topic_name used publishers : ∀ s,
  subscriptions_ (foldl (warn_about_publisher topic_name used) s publishers) =
    subscriptions_ s ∧
  writer_ (foldl (warn_about_publisher topic_name used) s publishers) =
    writer_ s.
Proof.
  induction publishers as [|p publishers IH]; intros s; [done|].
  cbn [foldl].
  destruct (IH (warn_about_publisher topic_name used s p)) as [-> ->].
  apply warn_about_publisher_keeps_subscriptions.
Qed.

Lemma warn_if_new_qos_keeps_subscriptions env topic_name s :
  subscriptions_ (warn_if_new_qos_for_subscribed_topic env topic_name s) =
    subscriptions_ s ∧
  writer_ (warn_if_new_qos_for_subscribed_topic env topic_name s) = writer_ s.
Proof.
  unfold warn_if_new_qos_for_subscribed_topic.
  destruct (subscriptions_ s !! topic_name) as [sub|]; [|done].
  case_bool_decide; [done|].
  apply warn_scan_keeps_subscriptions.
Qed.

Lemma warn_round_keeps_subscriptions env (topics : list (string * string)) :
  ∀ s,
  let s' := foldl (λ s topic_and_type,
              warn_if_new_qos_for_subscribed_topic env topic_and_type.1 s)
              s topics in
  subscriptions_ s' = subscriptions_ s ∧ writer_ s' = writer_ s.
Proof.
  induction topics as [|topic topics IH]; intros s; [done|].
  cbn [foldl]. cbn zeta in IH.
  destruct (IH (warn_if_new_qos_for_subscribed_topic env topic.1 s)) as [-> ->].
  apply warn_if_new_qos_keeps_subscriptions.
Qed.

Lemma discovery_round_knows env s :
  writer_knows_subscriptions s →
  writer_knows_subscriptions (discovery_round lib env s).
Proof.
  intros Hknows. unfold discovery_round. apply subscribe_topics_knows.
  unfold writer_knows_subscriptions.
  destruct (warn_round_keeps_subscriptions env
              (get_requested_or_available_topics env) s) as [-> ->].
  exact Hknows.
Qed.

(** X13: the recorder never holds a subscription on a topic that it has
    not created in the writer (or has removed from it): [subscribe_topics],
    [record] and [topics_discovery] keep this. *)
Theorem subscriptions_are_known_to_writer (env : Middleware) (s : Recorder.t) :
  writer_knows_subscriptions s →
  (∀ topics, writer_knows_subscriptions (subscribe_topics lib env topics s)) ∧
  (∀ s', record lib env s = Ret () s' → writer_knows_subscriptions s') ∧
  (∀ requested rounds,
     writer_knows_subscriptions (topics_discovery lib requested rounds s)).
Proof.
  intros Hknows. split_and!.
  - intros topics. by apply subscribe_topics_knows.
  - intros s' Hrun. unfold record in Hrun.
    apply bind_inv in Hrun as ([] & s1 & [= <-] & Hrun).
    apply bind_inv in Hrun as (format & s2 & [= <- <-] & Hrun).
    case_bool_decide; [done|].
    apply bind_inv in Hrun as ([] & s3 & Hopen & Hrun).
    destruct (writer_open_error env); [done|]. injection Hopen as <-.
    apply bind_inv in Hrun as (snapshot & s4 & [= <- <-] & Hrun).
    apply bind_inv in Hrun as ([] & s5 & Hsnap & Hrun).
    apply bind_inv in Hrun as ([] & s6 & [= <-] & Hrun).
    apply bind_inv in Hrun as ([] & s7 & [= <-] & Hrun).
    apply bind_inv in Hrun as ([] & s8 & [= <-] & Hrun).
    apply bind_inv in Hrun as (disabled & s9 & [= <- <-] & Hrun).
    assert (writer_knows_subscriptions
              (subscribe_topics lib env (get_requested_or_available_topics env)
                 (add_log INFO "Listening for topics..."
                    (set_serialization_format_
                       (rmw_serialization_format (record_options_ s)) s5))))
      as Hdone.
    { apply subscribe_topics_knows.
      destruct (snapshot_mode _); injection Hsnap as <-; exact Hknows. }
    destruct (negb _); injection Hrun as <-; exact Hdone.
  - intros requested rounds. revert s Hknows.
    induction rounds as [|env0 rounds IH]; intros s Hknows; [done|].
    cbn [topics_discovery].
    pose proof (discovery_round_knows env0 s Hknows) as Hround.
    destruct (_ && _); [exact Hround|by apply IH].
Qed.


Lemma subscribe_topic_lookup env topic s k :
  subscriptions_ (subscribe_topic lib env topic s) !! k =
    if decide (k = name topic) then
      match create_generic_subscription env (name topic) (type topic)
              (subscription_qos_for_topic lib env (name topic) s).2 with
      | Some subscription =>
          Some (default subscription (subscriptions_ s !! name topic))
      | None => None
      end
    else subscriptions_ s !! k.
Proof.
  unfold subscribe_topic, subscription_qos_for_topic. cbn.
  destruct (topic_qos_profile_overrides_ s !! name topic) as [qos|]; cbn;
    (destruct (create_generic_subscription env _ _ _) as [sub|]; cbn;
     [destruct (subscriptions_ s !! name topic) as [old|] eqn:Hold; cbn|]);
    destruct (decide (k = name topic)) as [->|Hne];
    rewrite ?lookup_insert_eq, ?lookup_delete_eq;
    rewrite ?lookup_insert_ne, ?lookup_delete_ne by done; done.
Qed.

(** X14: after [subscribe_topic] the topic is subscribed exactly when the
    transport created a subscription; a subscription that existed is then
    kept instead of the new one, and when the transport created none, a
    subscription that existed is dropped and the topic is removed from the
    writer.  The subscriptions of the other topics are untouched. *)
Theorem subscribe_topic_outcome (env : Middleware) (topic : TopicMetadata)
    (s : Recorder.t) :
  let s' := subscribe_topic lib env topic s in
  let qos := (subscription_qos_for_topic lib env (name topic) s).2 in
  subscriptions_ s' !! name topic =
    match create_generic_subscription env (name topic) (type topic) qos with
    | Some subscription =>
        Some (default subscription (subscriptions_ s !! name topic))
    | None => None
    end ∧
  (create_generic_subscription env (name topic) (type topic) qos = None →
   name topic ∉ name <$> Writer.topics (writer_ s')) ∧
  (∀ k, k ≠ name topic → subscriptions_ s' !! k = subscriptions_ s !! k).
Proof.
  intros s' qos. subst s' qos. split_and!.
  - rewrite subscribe_topic_lookup. by rewrite decide_True.
  - intros Hnone. unfold subscribe_topic. revert Hnone.
    unfold subscription_qos_for_topic. cbn.
    destruct (topic_qos_profile_overrides_ s !! name topic) as [qos|]; cbn;
      intros ->; cbn;
      intros (tm & Hname & [Hne _]%list_elem_of_filter)%list_elem_of_fmap;
      congruence.
  - intros k Hne. rewrite subscribe_topic_lookup. by rewrite decide_False.
Qed.

Lemma subscribe_topics_other env topics k : ∀ s,
  k ∉ topics.*1 →
  subscriptions_ (subscribe_topics lib env topics s) !! k =
    subscriptions_ s !! k.
Proof.
  unfold subscribe_topics.
  induction topics as [|topic topics IH]; intros s Hk; [done|].
  cbn [foldl]. rewrite fmap_cons, not_elem_of_cons in Hk.
  destruct Hk as [Hne Hk]. rewrite IH by done.
  rewrite subscribe_topic_lookup. by rewrite decide_False.
Qed.

Lemma missing_topics_names (all_topics : list (string * string)) s k :
  k ∈ (get_missing_topics all_topics s).*1 ↔
  k ∈ all_topics.*1 ∧ subscriptions_ s !! k = None.
Proof.
  unfold get_missing_topics. rewrite !list_elem_of_fmap. split.
  - intros (i & -> & [Hnone Hin]%list_elem_of_filter). eauto.
  - intros [(i & -> & Hin) Hnone]. exists i. split; [done|].
    by apply list_elem_of_filter.
Qed.

Lemma discovery_round_keeps env s k sub :
  subscriptions_ s !! k = Some sub →
  subscriptions_ (discovery_round lib env s) !! k = Some sub.
Proof.
  intros Hk. unfold discovery_round.
  destruct (warn_round_keeps_subscriptions env
              (get_requested_or_available_topics env) s) as [Hsubs _].
  cbn zeta in Hsubs. rewrite subscribe_topics_other.
  - by rewrite Hsubs.
  - rewrite missing_topics_names, Hsubs, Hk. by intros [_ ?].
Qed.

(** X15: [topics_discovery] never drops or replaces a subscription:
    whatever the graph does during the rounds, a topic that was subscribed
    keeps its subscription. *)
Theorem topics_discovery_keeps_subscriptions (requested : list string)
    (rounds : list Middleware) (s : Recorder.t) (k : string)
    (sub : GenericSubscription) :
  subscriptions_ s !! k = Some sub →
  subscriptions_ (topics_discovery lib requested rounds s) !! k = Some sub.
Proof.
  revert s. induction rounds as [|env rounds IH]; intros s Hk; [done|].
  cbn [topics_discovery].
  pose proof (discovery_round_keeps env s k sub Hk) as Hround.
  destruct (_ && _); [exact Hround|by apply IH].
Qed.

Lemma subscribe_topics_accepted env topics k : ∀ s,
  (∀ n t q, is_Some (create_generic_subscription env n t q)) →
  is_Some (subscriptions_ (subscribe_topics lib env topics s) !! k) ↔
  is_Some (subscriptions_ s !! k) ∨ k ∈ topics.*1.
Proof.
  intros s Haccept. revert s. unfold subscribe_topics.
  induction topics as [|topic topics IH]; intros s.
  - cbn. rewrite elem_of_nil. tauto.
  - cbn [foldl]. rewrite IH, subscribe_topic_lookup, fmap_cons, elem_of_cons.
    cbn [name type].
    destruct (decide (k = topic.1)) as [->|Hne]; [|tauto].
    destruct (Haccept topic.1 topic.2
                (subscription_qos_for_topic lib env topic.1 s).2)
      as [sub ->].
    split; [tauto|]. intros _. left. by eexists.
Qed.

(** X16: when the transport accepts every subscription, a turn of the loop
    of [topics_discovery] leaves subscribed exactly the topics that were
    subscribed before and the topics returned by
    [get_requested_or_available_topics]. *)
Theorem discovery_round_subscribes_every_topic (env : Middleware)
    (s : Recorder.t) (k : string) :
  (∀ n t q, is_Some (create_generic_subscription env n t q)) →
  is_Some (subscriptions_ (discovery_round lib env s) !! k) ↔
  is_Some (subscriptions_ s !! k) ∨
  k ∈ (get_requested_or_available_topics env).*1.
Proof.
  intros Haccept. unfold discovery_round.
  destruct (warn_round_keeps_subscriptions env
              (get_requested_or_available_topics env) s) as [Hsubs _].
  cbn zeta in Hsubs.
  rewrite subscribe_topics_accepted by done.
  rewrite missing_topics_names, Hsubs.
  destruct (subscriptions_ s !! k) as [sub|] eqn:Hk.
  - split; intros _; left; by eexists.
  - split.
    + intros [[? [=]]|[? _]]. by right.
    + intros [[? [=]]|?]. by right.
Qed.

Lemma warn_scan_log topic_name used publishers : ∀ s,
  let s' := foldl (warn_about_publisher topic_name used) s publishers in
  let offending := filter (λ p, incompatible used p = true) publishers in
  Recorder.logger s' =
    Recorder.logger s ++ (warning_line topic_name used <$> offending) ∧
  (offending = [] → s' = s) ∧
  (topic_name ∈ topics_warned_about_incompatibility_ s' ↔
   topic_name ∈ topics_warned_about_incompatibility_ s ∨ offending ≠ []).
Proof.
  induction publishers as [|p publishers IH]; intros s.
  - cbn. rewrite app_nil_r. split_and!; [done|done|]. tauto.
  - cbn [foldl]. cbn zeta in IH |- *.
    destruct (IH (warn_about_publisher topic_name used s p))
      as (Hlog & Hsame & Hwarned).
    rewrite Hlog, Hwarned. rewrite filter_cons.
    unfold warn_about_publisher, incompatible, warning_line in *.
    destruct (Qos.is_best_effort (Qos.reliability p) &&
              negb (Qos.is_best_effort (Qos.reliability used))) eqn:Hrel;
      [|destruct (Qos.is_volatile (Qos.durability p) &&
                  negb (Qos.is_volatile (Qos.durability used))) eqn:Hdur];
      cbn [orb]; [rewrite decide_True by done..|rewrite decide_False by done].
    + cbn. rewrite Hrel. rewrite <-app_assoc. split_and!; [done|done|].
      rewrite elem_of_union, elem_of_singleton. split; [|intros _; by left; left].
      intros _. by right.
    + cbn. rewrite Hrel. rewrite <-app_assoc. split_and!; [done|done|].
      rewrite elem_of_union, elem_of_singleton. split; [|intros _; by left; left].
      intros _. by right.
    + split_and!; [done| |done].
      intros Hnil. rewrite Hsame by done. done.
Qed.

Lemma qos_warnings_lines topic_name used (ps : list Qos.t) :
  filter (λ line, line = (WARN, reliability_warning topic_name) ∨
                  line = (WARN, durability_warning topic_name))
         (warning_line topic_name used <$> ps) =
    warning_line topic_name used <$> ps.
Proof.
  induction ps as [|p ps IH]; [done|].
  rewrite fmap_cons, filter_cons, IH. rewrite decide_True; [done|].
  unfold warning_line. destruct (_ && _); [by left|by right].
Qed.

(** X17: for a subscribed topic that was not warned about,
    [warn_if_new_qos_for_subscribed_topic] sends one warning for each
    publisher of the topic that offers best-effort reliability or volatile
    durability against a stricter subscription; the topic is recorded as
    warned exactly when there is such a publisher, and without one the
    recorder is unchanged. *)
Theorem warn_if_new_qos_warns_once_per_publisher (env : Middleware)
    (topic_name : string) (sub : GenericSubscription) (s : Recorder.t) :
  subscriptions_ s !! topic_name = Some sub →
  topic_name ∉ topics_warned_about_incompatibility_ s →
  let s' := warn_if_new_qos_for_subscribed_topic env topic_name s in
  let offending :=
    filter (λ p, incompatible (actual_qos sub) p = true)
           (get_publishers_info_by_topic env topic_name) in
  length (qos_warnings topic_name s') =
    (length (qos_warnings topic_name s) + length offending)%nat ∧
  (topic_name ∈ topics_warned_about_incompatibility_ s' ↔ offending ≠ []) ∧
  (offending = [] → s' = s).
Proof.
  intros Hsub Hnew s' offending. subst s' offending.
  unfold warn_if_new_qos_for_subscribed_topic. rewrite Hsub.
  rewrite bool_decide_false by done.
  destruct (warn_scan_log topic_name (actual_qos sub)
              (get_publishers_info_by_topic env topic_name) s)
    as (Hlog & Hsame & Hwarned).
  cbn zeta in Hlog, Hsame, Hwarned. split_and!.
  - unfold qos_warnings. rewrite Hlog, filter_app, qos_warnings_lines.
    by rewrite length_app, length_fmap.
  - rewrite Hwarned. tauto.
  - exact Hsame.
Qed.

End DiscoveryFacts.

Section DiscoveryFactsWitnesses.
Import Recorder Discovery.

Lemma fresh_recorder_knows :
  writer_knows_subscriptions (Scenario.fresh_recorder "cdr").
Proof.
  intros k [sub Hsub]. cbn in Hsub. by rewrite lookup_empty in Hsub.
Qed.

Lemma subscriptions_are_known_to_writer_witness :
  (∀ topics, writer_knows_subscriptions
               (subscribe_topics Scenario.toy_library
                  Scenario.two_best_effort_publishers topics
                  (Scenario.fresh_recorder "cdr"))) ∧
  (∀ s', record Scenario.toy_library Scenario.two_best_effort_publishers
           (Scenario.fresh_recorder "cdr") = Ret () s' →
         writer_knows_subscriptions s') ∧
  (∀ requested rounds,
     writer_knows_subscriptions
       (topics_discovery Scenario.toy_library requested rounds
          (Scenario.fresh_recorder "cdr"))).
Proof.
  apply (subscriptions_are_known_to_writer Scenario.toy_library
           Scenario.two_best_effort_publishers (Scenario.fresh_recorder "cdr")).
  exact fresh_recorder_knows.
Defined.

Lemma subscribe_topic_outcome_witness :
  let s' := subscribe_topic Scenario.toy_library Samples.refusing_middleware
              Samples.topic_t Scenario.subscribed_recorder in
  is_Some (subscriptions_ Scenario.subscribed_recorder !! "/t"%string) ∧
  subscriptions_ s' !! "/t"%string = None ∧
  "/t"%string ∉ name <$> Writer.topics (writer_ s').
Proof.
  pose proof (subscribe_topic_outcome Scenario.toy_library
                Samples.refusing_middleware Samples.topic_t
                Scenario.subscribed_recorder) as H.
  cbv zeta in H. destruct H as (Hlookup & Hwriter & _).
  split_and!; [by eexists|exact Hlookup|by apply Hwriter].
Defined.

Lemma topics_discovery_keeps_subscriptions_witness :
  subscriptions_
    (topics_discovery Scenario.toy_library []
       [Scenario.two_best_effort_publishers; Samples.refusing_middleware]
       Scenario.subscribed_recorder) !! "/t"%string =
    Some (mkSubscription "std_msgs/msg/String" Scenario.reliable).
Proof.
  apply (topics_discovery_keeps_subscriptions Scenario.toy_library []
           [Scenario.two_best_effort_publishers; Samples.refusing_middleware]
           Scenario.subscribed_recorder).
  reflexivity.
Defined.

Lemma discovery_round_subscribes_every_topic_witness :
  is_Some (subscriptions_
             (discovery_round Scenario.toy_library
                Scenario.two_best_effort_publishers
                (Scenario.fresh_recorder "cdr")) !! "/t"%string) ↔
  is_Some (subscriptions_ (Scenario.fresh_recorder "cdr") !! "/t"%string) ∨
  "/t"%string ∈
    (get_requested_or_available_topics Scenario.two_best_effort_publishers).*1.
Proof.
  apply (discovery_round_subscribes_every_topic Scenario.toy_library
           Scenario.two_best_effort_publishers (Scenario.fresh_recorder "cdr")).
  intros n t q. by eexists.
Defined.

Lemma warn_if_new_qos_warns_once_per_publisher_witness :
  let s' := warn_if_new_qos_for_subscribed_topic
              Scenario.two_best_effort_publishers "/t"
              Scenario.subscribed_recorder in
  let offending :=
    filter (λ p, incompatible Scenario.reliable p = true)
           [Scenario.best_effort; Scenario.best_effort] in
  length (qos_warnings "/t" s') =
    (length (qos_warnings "/t" Scenario.subscribed_recorder) +
     length offending)%nat ∧
  ("/t"%string ∈ topics_warned_about_incompatibility_ s' ↔ offending ≠ []) ∧
  (offending = [] → s' = Scenario.subscribed_recorder).
Proof.
  apply (warn_if_new_qos_warns_once_per_publisher
           Scenario.two_best_effort_publishers "/t"
           (mkSubscription "std_msgs/msg/String" Scenario.reliable)
           Scenario.subscribed_recorder).
  - reflexivity.
  - apply not_elem_of_empty.
Defined.

End DiscoveryFactsWitnesses.
